(** * hello_world: the weather aggregation service of [main.go]

    A shallow embedding of the Go program and the properties of its
    concurrent fan-out aggregator, [multiWeatherProvider.temperature].

    - [float64] is Rocq's primitive [float] (IEEE 754 binary64, round to
      nearest even), so every arithmetic expression of the source is
      evaluated bit for bit.
    - A Go [error] is [option string]: [None] is [nil], [Some msg] a non-nil
      error with message [msg].
    - The functions of the Go standard library that the program calls
      ([http.Get], [json.Decoder.Decode], [strconv.FormatFloat]) are the fields
      of a record [World], an argument of every provider.
    - The goroutines and the two buffered channels of the aggregator are a
      state machine: a state holds the channel buffers, one program counter
      per goroutine and the program counter of the aggregator; [step] performs
      one atomic move of one of them, and a schedule (a list of moves) is an
      interleaving.  A property of the aggregator is a property of every
      schedule. *)

From Stdlib Require Import PrimInt63 PrimFloat FloatClass Ascii String.
From stdpp Require Import base option list strings.

Set Default Proof Using "Type".
Local Set Warnings "-inexact-float".

(** ** Values of the Go runtime *)

(** [error]: [nil] or a non-nil error value carrying its message. *)
Definition error : Type := option string.

(** [float64(n)] for a non-negative [int] such as [len(w)]. *)
Fixpoint int_of_nat (n : nat) : PrimInt63.int :=
  match n with
  | O => 0%uint63
  | S k => PrimInt63.add (int_of_nat k) 1%uint63
  end.

Definition float64_of_nat (n : nat) : float := PrimFloat.of_uint63 (int_of_nat n).

(** A buffered channel, [make(chan A, cap)]: the queued values, oldest first,
    and the capacity fixed at creation.  (With [cap = 0] the channel of Go is
    unbuffered; the aggregator makes such channels only for an empty provider
    set, and then nothing is ever sent.) *)
Record chan (A : Type) : Type := mkChan { buf : list A; cap : nat }.
Arguments mkChan {A} buf cap.
Arguments buf {A} c.
Arguments cap {A} c.

Definition make_chan {A : Type} (n : nat) : chan A := mkChan [] n.

(** [c <- x] can proceed when the buffer has room; it blocks otherwise. *)
Definition can_send {A : Type} (c : chan A) : bool := bool_decide (length (buf c) < cap c).

Definition send {A : Type} (c : chan A) (x : A) : chan A := mkChan (buf c ++ [x]) (cap c).

Definition set_buf {A : Type} (c : chan A) (l : list A) : chan A := mkChan l (cap c).

(** ** The provider interface *)

(** [type weatherProvider interface { temperature(city string) (float64, error) }].
    A provider is called once per aggregation; it is the function from the
    city to the pair that call returns.  A call that never returns (an
    [http.Get] without answer) has no pair: in the state machine below it is a
    goroutine that stays in [GCall], and a statement about runs in which every
    move is eventually taken speaks of calls that do return. *)
Definition weatherProvider : Type := string → float * error.

(** [type multiWeatherProvider []weatherProvider] *)
Abbreviation multiWeatherProvider := (list weatherProvider).

(** ** The aggregator, [multiWeatherProvider.temperature] *)

(** A goroutine started at line 139. *)
Inductive goroutine : Type :=
  | GCall (p : weatherProvider)      (* started; [p.temperature(city)] has not returned *)
  | GSend (k : float) (err : error)  (* holds [k, err]; its send is next *)
  | GExit.                           (* has sent and returned *)

(** The aggregator itself. *)
Inductive aggregator : Type :=
  | Launching (rest : multiWeatherProvider) (* the [range] loop of line 138 *)
  | Receiving (i : nat) (sum : float)       (* the loop of line 151, before its test *)
  | Returned (r : float * error).           (* the call has returned [r] *)

Record state : Type := mkState {
  temps : chan float;
  errs : chan error;
  gos : list goroutine;
  agg : aggregator
}.

(** One atomic move. *)
Inductive move : Type :=
  | Agg          (* the aggregator starts the next goroutine, enters or leaves the loop *)
  | SelectTemps  (* [select] takes [case temp := <-temps] *)
  | SelectErrs   (* [select] takes [case err := <-errs] *)
  | Go (j : nat) (* goroutine [j] performs its next action *).

Section Aggregator.
Variable w : multiWeatherProvider.
Variable city : string.

(** Lines 135-136: both channels are made with capacity [len(w)]; nothing
    is started yet. *)
Definition init : state :=
  mkState (make_chan (length w)) (make_chan (length w)) [] (Launching w).

(** The body of the goroutine, lines 140-145. *)
Definition go_step (j : nat) (s : state) : option state :=
  match gos s !! j with
  | Some (GCall p) =>
      let '(k, err) := p city in
      Some (mkState (temps s) (errs s) (<[j := GSend k err]> (gos s)) (agg s))
  | Some (GSend k err) =>
      match err with
      | Some _ =>
          if can_send (errs s)
          then Some (mkState (temps s) (send (errs s) err) (<[j := GExit]> (gos s)) (agg s))
          else None
      | None =>
          if can_send (temps s)
          then Some (mkState (send (temps s) k) (errs s) (<[j := GExit]> (gos s)) (agg s))
          else None
      end
  | Some GExit | None => None
  end.

(** The aggregator's own moves, lines 138-161.  [None]: the move is not
    enabled in [s] (the aggregator is elsewhere, or the channel is empty). *)
Definition agg_step (s : state) : option state :=
  match agg s with
  | Launching (p :: rest) =>
      Some (mkState (temps s) (errs s) (gos s ++ [GCall p]) (Launching rest))
  | Launching [] =>
      Some (mkState (temps s) (errs s) (gos s) (Receiving 0 0%float))
  | Receiving i sum =>
      if bool_decide (i < length w) then None
      else Some (mkState (temps s) (errs s) (gos s)
                   (Returned ((sum / float64_of_nat (length w))%float, None)))
  | Returned _ => None
  end.

Definition select_temps (s : state) : option state :=
  match agg s, buf (temps s) with
  | Receiving i sum, temp :: ts =>
      if bool_decide (i < length w)
      then Some (mkState (set_buf (temps s) ts) (errs s) (gos s)
                   (Receiving (S i) (sum + temp)%float))
      else None
  | _, _ => None
  end.

Definition select_errs (s : state) : option state :=
  match agg s, buf (errs s) with
  | Receiving i sum, err :: es =>
      if bool_decide (i < length w)
      then Some (mkState (temps s) (set_buf (errs s) es) (gos s) (Returned (0%float, err)))
      else None
  | _, _ => None
  end.

Definition step (m : move) (s : state) : option state :=
  match m with
  | Agg => agg_step s
  | SelectTemps => select_temps s
  | SelectErrs => select_errs s
  | Go j => go_step j s
  end.

(** Running a schedule; [None] when a move of the schedule is not enabled. *)
Fixpoint exec (sched : list move) (s : state) : option state :=
  match sched with
  | [] => Some s
  | m :: sched' =>
      match step m s with
      | Some s' => exec sched' s'
      | None => None
      end
  end.

Definition reachable (s : state) : Prop := ∃ sched, exec sched init = Some s.

(** The call can return [r]: some interleaving ends with the aggregator
    returning [r]. *)
Definition returns (r : float * error) : Prop :=
  ∃ sched s, exec sched init = Some s ∧ agg s = Returned r.
End Aggregator.

(** The float64 accumulation of lines 149-154 over the values received, in
    the order received, and the quotient of line 161. *)
Definition sum_of (vs : list float) : float := fold_left PrimFloat.add vs 0%float.

Definition mean (n : nat) (vs : list float) : float := (sum_of vs / float64_of_nat n)%float.

(** ** The world outside the program *)

(** [type Coord struct { Lon float64; Lat float64 }] *)
Record Coord : Type := mkCoord { Lon : float; Lat : float }.

(** The functions of the Go standard library that the providers call.
    - [http_Get url]: [http.Get(url)], the body of the response and the error;
    - [decode_...]: [json.NewDecoder(resp.Body).Decode(&d)] for each of the four
      anonymous structs of the program, the field read from [d] afterwards
      and the error;
    - [strconv_FormatFloat]: [strconv.FormatFloat]. *)
Record World : Type := mkWorld {
  http_Get : string → string * error;
  decode_main_temp : string → float * error;
  decode_current_observation_temp_c : string → float * error;
  decode_currently_temperature : string → float * error;
  decode_coord : string → Coord * error;
  strconv_FormatFloat : float → Ascii.ascii → Z → Z → string
}.

Definition FloatToString (W : World) (input_num : float) : string :=
  strconv_FormatFloat W input_num "f"%char 2 64.

Definition FahrenheitToCelsius (input_num : float) : float :=
  let result := ((input_num - 32) * 5 / 9)%float in
  result.

Module openWeatherMap.

Definition url (city : string) : string :=
  "http://api.openweathermap.org/data/2.5/weather?q=" +:+ city.

(** Lines 67-87.  Both error paths return [Coord{}, nil]. *)
Definition coordinates (W : World) (city : string) : Coord * error :=
  let '(resp, err) := http_Get W (url city) in
  match err with
  | Some _ => (mkCoord 0 0, None)
  | None =>
      let '(d, err) := decode_coord W resp in
      match err with
      | Some _ => (mkCoord 0 0, None)
      | None => (mkCoord (Lon d) (Lat d), None)
      end
  end.

(** Lines 89-110. *)
Definition temperature (W : World) (city : string) : float * error :=
  let '(resp, err) := http_Get W (url city) in
  match err with
  | Some _ => (0%float, err)
  | None =>
      let '(Kelvin, err) := decode_main_temp W resp in
      match err with
      | Some _ => (0%float, err)
      | None =>
          let celsius := (Kelvin - 273.15)%float in
          (celsius, None)
      end
  end.

End openWeatherMap.

Module weatherUnderground.

Record t : Type := mk { apiKey : string }.

Definition url (w : t) (city : string) : string :=
  "http://api.wunderground.com/api/" +:+ apiKey w +:+ "/conditions/q/" +:+ city +:+ ".json".

(** Lines 112-132.  The last [return] gives the [err] of [http.Get], which
    is nil there. *)
Definition temperature (W : World) (w : t) (city : string) : float * error :=
  let '(resp, err) := http_Get W (url w city) in
  match err with
  | Some _ => (0%float, err)
  | None =>
      let '(Celsius, err') := decode_current_observation_temp_c W resp in
      match err' with
      | Some _ => (0%float, err')
      | None => (Celsius, err)
      end
  end.

End weatherUnderground.

Module forecastIo.

Record t : Type := mk { apiKey : string }.

(** Line 44. *)
Definition url (W : World) (w : t) (coord : Coord) : string :=
  "https://api.forecast.io/forecast/" +:+ apiKey w +:+ "/"
    +:+ FloatToString W (Lat coord) +:+ "," +:+ FloatToString W (Lon coord).

(** Lines 44-64: the request made with the coordinates [coord]. *)
Definition forecast (W : World) (w : t) (coord : Coord) : float * error :=
  let '(resp, err) := http_Get W (url W w coord) in
  match err with
  | Some _ => (0%float, err)
  | None =>
      let '(Fahrenheit, err) := decode_currently_temperature W resp in
      match err with
      | Some _ => (0%float, err)
      | None => (FahrenheitToCelsius Fahrenheit, None)
      end
  end.

(** Lines 38-65. *)
Definition temperature (W : World) (w : t) (city : string) : float * error :=
  let '(coord, err) := openWeatherMap.coordinates W city in
  match err with
  | Some _ => (0%float, err)
  | None => forecast W w coord
  end.

End forecastIo.

(** ** The HTTP handlers *)

(** [strings.SplitN(s, sep, n)] for [n >= 0] and a non-empty [sep]: at most
    [n] substrings, the last one the unsplit remainder. *)
Fixpoint SplitN (s sep : string) (n : nat) : list string :=
  match n with
  | 0 => []
  | 1 => [s]
  | S n' =>
      match String.index 0 sep s with
      | None => [s]
      | Some i =>
          String.substring 0 i s
          :: SplitN (String.substring (i + String.length sep)
                       (String.length s - (i + String.length sep)) s) sep n'
      end
  end.

(** [strings.SplitN(r.URL.Path, "/", 3)[2]], lines 178 and 200; [None] is the
    run-time panic of an index out of range. *)
Definition path_city (path : string) : option string := SplitN path "/" 3 !! 2.

(** Lines 193-197. *)
Definition mw (W : World) : multiWeatherProvider :=
  [ openWeatherMap.temperature W;
    weatherUnderground.temperature W (weatherUnderground.mk "1df429f462bc7ee1");
    forecastIo.temperature W (forecastIo.mk "12e03ff21975540f37c2b8cc79e3093b") ].

(** The handler [weather], lines 192-202: the aggregation it calls for a
    request path, [mw.temperature(city)]. *)
Definition weather (W : World) (path : string) : option (multiWeatherProvider * string) :=
  city ← path_city path; Some (mw W, city).

(** The handler [coordinates], lines 177-181: the lookup it makes. *)
Definition coordinates (W : World) (path : string) : option (Coord * error) :=
  city ← path_city path; Some (openWeatherMap.coordinates W city).

(** ** What each provider call contributes *)

(** The pair a provider call returns. *)
Definition outcome : Type := float * error.

(** The goroutine sends [k] on [temps] when [err == nil] ... *)
Definition reading (o : outcome) : list float :=
  match o.2 with None => [o.1] | Some _ => [] end.

(** ... and [err] on [errs] otherwise. *)
Definition failure (o : outcome) : list error :=
  match o.2 with None => [] | Some _ => [o.2] end.

Definition readings (os : list outcome) : list float := os ≫= reading.
Arguments readings : simpl never.
Definition failures (os : list outcome) : list error := os ≫= failure.
Arguments failures : simpl never.

(** The results of calling every provider of [w] at [city], in the order of [w]. *)
Definition measure (w : multiWeatherProvider) (city : string) : list outcome :=
  (λ p : weatherProvider, p city) <$> w.

(** What a goroutine has still to deliver. *)
Definition pending (city : string) (g : goroutine) : list outcome :=
  match g with
  | GCall p => [p city]
  | GSend k err => [(k, err)]
  | GExit => []
  end.

(** The successes, and the failures, that are queued or still to be sent. *)
Definition temps_due (city : string) (s : state) : list float :=
  buf (temps s) ++ readings (gos s ≫= pending city).

Definition errs_due (city : string) (s : state) : list error :=
  buf (errs s) ++ failures (gos s ≫= pending city).

(** ** The accounting invariant *)

(** What a returned pair can be: the mean of all readings in the order they
    were received, when no provider failed, or [0] with a provider's error. *)
Definition result_ok (w : multiWeatherProvider) (city : string) (r : float * error) : Prop :=
  (failures (measure w city) = []
   ∧ ∃ got, got ≡ₚ readings (measure w city) ∧ r = (mean (length w) got, None))
  ∨ (r.1 = 0%float ∧ r.2 ∈ failures (measure w city)).

Definition inv (w : multiWeatherProvider) (city : string) (s : state) : Prop :=
  cap (temps s) = length w ∧ cap (errs s) = length w ∧
  match agg s with
  | Launching rest =>
      ∃ started, w = started ++ rest ∧ length (gos s) = length started ∧
        temps_due city s ++ readings (measure rest city) ≡ₚ readings (measure w city) ∧
        errs_due city s ++ failures (measure rest city) ≡ₚ failures (measure w city)
  | Receiving i sum =>
      ∃ got, length got = i ∧ sum = sum_of got ∧ length (gos s) = length w ∧
        got ++ temps_due city s ≡ₚ readings (measure w city) ∧
        errs_due city s ≡ₚ failures (measure w city)
  | Returned r =>
      length (gos s) = length w ∧
      temps_due city s ⊆+ readings (measure w city) ∧
      errs_due city s ⊆+ failures (measure w city) ∧
      result_ok w city r
  end.

(** ** Schedules *)

(** The goroutine of [p] after [p.temperature(city)] has returned. *)
Definition called (city : string) (p : weatherProvider) : goroutine :=
  GSend (p city).1 (p city).2.

(** Goroutines over successful readings [vs], those with an index in [sent]
    having sent already, the others about to. *)
Definition sending (vs : list float) (sent : list nat) : list goroutine :=
  imap (λ j v, if decide (j ∈ sent) then GExit else GSend v None) vs.

(** Readings paired with the index of their provider. *)
Definition indexed (vs : list float) : list (nat * float) := imap pair vs.

(** Launch everything, let every provider answer, let the goroutines send in
    the order [order], then receive everything. *)
Definition arrival_schedule (n : nat) (order : list nat) : list move :=
  replicate n Agg ++ [Agg] ++ (Go <$> seq 0 n) ++ (Go <$> order)
    ++ replicate n SelectTemps ++ [Agg].

(** Launch everything, let only goroutine [j] run to its send, and receive
    from [errs]. *)
Definition early_failure_schedule (n j : nat) : list move :=
  replicate n Agg ++ [Agg; Go j; Go j; SelectErrs].

(** The moves of the aggregator. *)
Definition aggregator_move (m : move) : Prop := m = Agg ∨ m = SelectTemps ∨ m = SelectErrs.

(** ** A termination measure *)

(** How many moves a goroutine has left. *)
Definition go_weight (g : goroutine) : nat :=
  match g with
  | GCall _ => 2
  | GSend _ _ => 1
  | GExit => 0
  end.

(** A bound on the number of moves left in a state, for [n] providers. *)
Definition moves_left (n : nat) (s : state) : nat :=
  sum_list_with go_weight (gos s)
  + match agg s with
    | Launching rest => 3 * length rest + n + 2
    | Receiving i _ => (n - i) + 1
    | Returned _ => 0
    end.

(** ** Sample providers and worlds *)

(** A provider that succeeds with the value [v]. *)
Definition ok (v : float) : weatherProvider := λ _, (v, None).

(** A provider that fails with message [msg], returning [k] beside the error. *)
Definition failing (k : float) (msg : string) : weatherProvider := λ _, (k, Some msg).

(** A world in which every request is answered with the body ["ok"] and
    every decoding yields the reading 300 (or the coordinates 2, 48). *)
Definition fair_weather : World :=
  mkWorld (λ _, ("ok", None)) (λ _, (300%float, None)) (λ _, (300%float, None))
    (λ _, (300%float, None)) (λ _, (mkCoord 2 48, None)) (λ _ _ _ _, "0.00").

(** A world in which every decoding yields a reading near the largest
    float64. *)
Definition heat_wave : World :=
  mkWorld (λ _, ("ok", None)) (λ _, (1.7e308%float, None)) (λ _, (1.7e308%float, None))
    (λ _, (1.7e308%float, None)) (λ _, (mkCoord 2 48, None)) (λ _ _ _ _, "0.00").

(** A world in which no request is answered. *)
Definition no_network : World :=
  mkWorld (λ _, ("", Some "dial tcp: no route to host")) (λ _, (0%float, Some "EOF"))
    (λ _, (0%float, Some "EOF")) (λ _, (0%float, Some "EOF"))
    (λ _, (mkCoord 0 0, Some "EOF")) (λ _ _ _ _, "0.00").

(** ** The responses of the handlers *)

(** What a handler leaves in its [http.ResponseWriter]: the status code, the
    [Content-Type] header and the body. *)
Record response : Type := mkResponse { status : nat; content_type : string; body : string }.

(** [http.StatusInternalServerError] and the status of a response written
    without [WriteHeader]. *)
Definition StatusInternalServerError : nat := 500.
Definition StatusOK : nat := 200.

(** [http.Error(w, msg, code)]: a plain-text response with the status [code]
    and the body [msg] followed by a newline; it replaces a [Content-Type]
    set before. *)
Definition http_Error (msg : string) (code : nat) : response :=
  mkResponse code "text/plain; charset=utf-8" (msg +:+ String "010"%char EmptyString).

(** [json.NewEncoder(w).Encode(m)] for the two maps the handlers build: what
    is written for a city and its coordinates, and for a city, its
    temperature and the time taken. *)
Record Encoding : Type := mkEncoding {
  encode_coordinates : string → Coord → string;
  encode_weather : string → float → string → string
}.

(** The handler [coordinates], lines 177-190: its response to a request
    path; [None] is the panic of [path_city]. *)
Definition coordinates_response (W : World) (J : Encoding) (path : string) : option response :=
  city ← path_city path;
  let '(lat, err) := openWeatherMap.coordinates W city in
  Some match err with
       | Some msg => http_Error msg StatusInternalServerError
       | None =>
           mkResponse StatusOK "application/json; charset=utf-8" (encode_coordinates J city lat)
       end.

(** A float64 that [encoding/json] can encode: neither NaN nor infinite. *)
Definition is_finite (x : float) : bool :=
  match PrimFloat.classify x with
  | NaN | PInf | NInf => false
  | _ => true
  end.

(** What line 209 writes.  [Encode] marshals the map before it writes
    anything: for a temperature that is NaN or infinite it returns an error,
    which the handler ignores, and nothing is written. *)
Definition weather_body (J : Encoding) (city : string) (temp : float) (took : string) : string :=
  if is_finite temp then encode_weather J city temp took else "".

(** The handler [weather], lines 202-213: its response once
    [mw.temperature(city)] has returned [r], [took] being
    [time.Since(begin).String()]. *)
Definition weather_response (J : Encoding) (city : string) (r : float * error)
    (took : string) : response :=
  let '(temp, err) := r in
  match err with
  | Some msg => http_Error msg StatusInternalServerError
  | None => mkResponse StatusOK "application/json; charset=utf-8" (weather_body J city temp took)
  end.

(** The responses the handler [weather] can give to a request path. *)
Definition weather_responds (W : World) (J : Encoding) (path : string) (resp : response) : Prop :=
  ∃ city r took,
    path_city path = Some city ∧ returns (mw W) city r ∧ resp = weather_response J city r took.

(** * Proofs *)

(** ** Elementary facts *)

Lemma readings_app (l1 l2 : list outcome) : readings (l1 ++ l2) = readings l1 ++ readings l2.
Proof. apply bind_app. Qed.

Lemma failures_app (l1 l2 : list outcome) : failures (l1 ++ l2) = failures l1 ++ failures l2.
Proof. apply bind_app. Qed.

Lemma readings_cons (o : outcome) (l : list outcome) : readings (o :: l) = reading o ++ readings l.
Proof. apply bind_cons. Qed.

Lemma failures_cons (o : outcome) (l : list outcome) : failures (o :: l) = failure o ++ failures l.
Proof. apply bind_cons. Qed.

Lemma readings_singleton (o : outcome) : readings [o] = reading o.
Proof. apply bind_singleton. Qed.

Lemma failures_singleton (o : outcome) : failures [o] = failure o.
Proof. apply bind_singleton. Qed.

Lemma reading_failure_length (o : outcome) : length (reading o) + length (failure o) = 1.
Proof. destruct o as [k [e|]]; reflexivity. Qed.

(** Every provider call is a success or a failure. *)
Lemma readings_failures_length (os : list outcome) :
  length (readings os) + length (failures os) = length os.
Proof.
  induction os as [|o os IH]; [done|].
  rewrite readings_cons, failures_cons, !length_app. cbn [length].
  pose proof (reading_failure_length o). lia.
Qed.

(** Only non-nil errors count as failures. *)
Lemma failures_not_nil (os : list outcome) (e : error) : e ∈ failures os → e ≠ None.
Proof.
  unfold failures. rewrite list_elem_of_bind. intros ([k [msg|]] & He & _); cbn in He.
  - apply list_elem_of_singleton in He as ->. done.
  - by apply elem_of_nil in He.
Qed.

Lemma failures_nil_all_ok (os : list outcome) :
  failures os = [] ↔ Forall (λ o, o.2 = None) os.
Proof.
  induction os as [|[k [msg|]] os IH]; [done|..]; rewrite failures_cons, Forall_cons; cbn.
  - split; [done|]. by intros [? _].
  - rewrite IH. split; [by split|by intros [_ ?]].
Qed.

Lemma readings_all_ok (os : list outcome) :
  Forall (λ o, o.2 = None) os → readings os = os.*1.
Proof.
  induction 1 as [|[k e] os He _ IH]; [done|]. cbn in He. subst e.
  rewrite readings_cons, fmap_cons, IH. done.
Qed.

Lemma measure_length (w : multiWeatherProvider) (city : string) : length (measure w city) = length w.
Proof. apply length_fmap. Qed.

Lemma measure_app (w1 w2 : multiWeatherProvider) (city : string) :
  measure (w1 ++ w2) city = measure w1 city ++ measure w2 city.
Proof. apply fmap_app. Qed.

Lemma sum_of_snoc (vs : list float) (v : float) : sum_of (vs ++ [v]) = (sum_of vs + v)%float.
Proof. unfold sum_of. by rewrite fold_left_app. Qed.

(** Replacing goroutine [j]: the list splits around it. *)
Lemma gos_split (l : list goroutine) (j : nat) (g g' : goroutine) :
  l !! j = Some g →
  ∃ l1 l2, l = l1 ++ g :: l2 ∧ <[j := g']> l = l1 ++ g' :: l2.
Proof.
  intros Hj. exists (take j l), (drop (S j) l). split.
  - by rewrite take_drop_middle.
  - apply insert_take_drop. by eapply lookup_lt_Some.
Qed.

Lemma pending_bind_insert (city : string) (l : list goroutine) (j : nat) (g g' : goroutine) :
  l !! j = Some g →
  ∃ o1 o2, l ≫= pending city = o1 ++ pending city g ++ o2
           ∧ <[j := g']> l ≫= pending city = o1 ++ pending city g' ++ o2.
Proof.
  intros (l1 & l2 & -> & ->)%(gos_split _ _ _ g').
  exists (l1 ≫= pending city), (l2 ≫= pending city).
  by rewrite !bind_app, !bind_cons.
Qed.

(** ** The accounting invariant

    Every provider call is accounted for exactly once: it is not started yet,
    pending in its goroutine, queued in a channel, or received by the
    aggregator.  Once the aggregator has returned, what it left behind is
    still part of what the providers produced. *)

Section Invariant.
Variable w : multiWeatherProvider.
Variable city : string.

#[local] Abbreviation all_readings := (readings (measure w city)).
#[local] Abbreviation all_failures := (failures (measure w city)).

Lemma inv_init : inv w city (init w).
Proof.
  split; [done|]. split; [done|]. exists []. by cbn.
Qed.

(** A goroutine's move changes neither the aggregator nor what is due. *)
Lemma go_step_due (j : nat) (s s' : state) :
  go_step city j s = Some s' →
  agg s' = agg s ∧ length (gos s') = length (gos s) ∧
  cap (temps s') = cap (temps s) ∧ cap (errs s') = cap (errs s) ∧
  temps_due city s' ≡ₚ temps_due city s ∧ errs_due city s' ≡ₚ errs_due city s.
Proof.
  unfold go_step, temps_due, errs_due.
  destruct (gos s !! j) as [[p|k err|]|] eqn:Hj; [| |done..].
  - destruct (p city) as [k err] eqn:Hp. intros [= <-]. cbn.
    destruct (pending_bind_insert city _ _ _ (GSend k err) Hj) as (o1 & o2 & -> & ->).
    cbn. rewrite Hp, length_insert. done.
  - destruct (pending_bind_insert city _ _ _ GExit Hj) as (o1 & o2 & E1 & E2).
    destruct err as [msg|].
    + destruct (can_send (errs s)); [|done]. intros [= <-]. cbn.
      rewrite E1, E2, length_insert. cbn.
      rewrite !readings_app, !failures_app. cbn.
      repeat split; try done. solve_Permutation.
    + destruct (can_send (temps s)); [|done]. intros [= <-]. cbn.
      rewrite E1, E2, length_insert. cbn.
      rewrite !readings_app, !failures_app. cbn.
      repeat split; try done. solve_Permutation.
Qed.

Lemma inv_go_step (j : nat) (s s' : state) : inv w city s → go_step city j s = Some s' → inv w city s'.
Proof.
  intros (Ht & He & Hs) (Ha & Hl & Ht' & He' & HT & HE)%go_step_due.
  split; [congruence|]. split; [congruence|].
  rewrite Ha. destruct (agg s) as [rest|i sum|r].
  - destruct Hs as (started & ? & ? & ? & ?). exists started.
    rewrite Hl, HT, HE. done.
  - destruct Hs as (got & ? & ? & ? & ? & ?). exists got.
    rewrite Hl, HT, HE. done.
  - rewrite Hl, HT, HE. done.
Qed.

Lemma inv_agg_step (s s' : state) : inv w city s → agg_step w s = Some s' → inv w city s'.
Proof.
  intros (Ht & He & Hs). unfold agg_step.
  destruct (agg s) as [[|p rest]|i sum|r] eqn:Ha; [..|done].
  - intros [= <-]. split; [done|]. split; [done|]. cbn.
    destruct Hs as (started & Hw & Hl & HT & HE).
    rewrite app_nil_r in Hw. subst started.
    exists []. cbn in HT, HE. rewrite app_nil_r in HT, HE. done.
  - intros [= <-]. split; [done|]. split; [done|]. cbn.
    destruct Hs as (started & Hw & Hl & HT & HE).
    exists (started ++ [p]). rewrite <- app_assoc. split; [done|].
    rewrite !length_app, Hl. split; [done|].
    unfold temps_due, errs_due in *. cbn.
    rewrite !bind_app, !readings_app, !failures_app. cbn.
    rewrite <- HT, <- HE. cbn. rewrite readings_cons, failures_cons.
    rewrite !app_nil_r. split; solve_Permutation.
  - case_bool_decide as Hi; [done|]. intros [= <-].
    split; [done|]. split; [done|]. cbn.
    destruct Hs as (got & Hgot & -> & Hl & HT & HE).
    pose proof (readings_failures_length (measure w city)) as Hlen.
    rewrite measure_length in Hlen.
    pose proof (Permutation_length HT) as HlT. rewrite length_app in HlT.
    assert (temps_due city s = []) as HT0 by (apply length_zero_iff_nil; lia).
    assert (all_failures = []) as HF0 by (apply length_zero_iff_nil; lia).
    unfold temps_due, errs_due in *. cbn.
    rewrite HT0 in *. rewrite app_nil_r in HT.
    split; [done|]. split; [apply submseteq_nil_l|]. split; [by rewrite HE|].
    left. split; [done|]. by exists got.
Qed.

Lemma inv_select_temps (s s' : state) : inv w city s → select_temps w s = Some s' → inv w city s'.
Proof.
  intros (Ht & He & Hs). unfold select_temps.
  destruct (agg s) as [rest|i sum|r] eqn:Ha; [done| |done].
  destruct (buf (temps s)) as [|temp ts] eqn:Hb; [done|].
  case_bool_decide as Hi; [|done]. intros [= <-].
  split; [done|]. split; [done|]. cbn.
  destruct Hs as (got & Hgot & -> & Hl & HT & HE).
  exists (got ++ [temp]). rewrite length_app, sum_of_snoc. cbn.
  split; [lia|]. split; [done|]. split; [done|].
  unfold temps_due, errs_due in *. cbn. rewrite Hb in HT.
  split; [|done]. rewrite <- HT. solve_Permutation.
Qed.

Lemma inv_select_errs (s s' : state) : inv w city s → select_errs w s = Some s' → inv w city s'.
Proof.
  intros (Ht & He & Hs). unfold select_errs.
  destruct (agg s) as [rest|i sum|r] eqn:Ha; [done| |done].
  destruct (buf (errs s)) as [|err es] eqn:Hb; [done|].
  case_bool_decide as Hi; [|done]. intros [= <-].
  split; [done|]. split; [done|]. cbn.
  destruct Hs as (got & Hgot & -> & Hl & HT & HE).
  unfold temps_due, errs_due in *. cbn. rewrite Hb in HE.
  split; [done|]. split; [|split].
  - rewrite <- HT. by apply submseteq_inserts_l.
  - rewrite <- HE. cbn. by apply submseteq_cons.
  - right. cbn. split; [done|]. rewrite <- HE. cbn. apply list_elem_of_here.
Qed.

Lemma inv_step (m : move) (s s' : state) : inv w city s → step w city m s = Some s' → inv w city s'.
Proof.
  destruct m; cbn; eauto using inv_agg_step, inv_select_temps, inv_select_errs, inv_go_step.
Qed.

Lemma inv_exec (sched : list move) (s s' : state) :
  inv w city s → exec w city sched s = Some s' → inv w city s'.
Proof.
  revert s. induction sched as [|m sched IH]; intros s Hs; cbn.
  - by intros [= <-].
  - destruct (step w city m s) as [s1|] eqn:Hm; [|done]. eauto using inv_step.
Qed.

Lemma inv_reachable (s : state) : reachable w city s → inv w city s.
Proof. intros [sched Hs]. eauto using inv_exec, inv_init. Qed.

(** In every state, what is due is part of what the providers produced. *)
Lemma inv_due (s : state) :
  inv w city s → temps_due city s ⊆+ all_readings ∧ errs_due city s ⊆+ all_failures.
Proof.
  intros (_ & _ & Hs). destruct (agg s) as [rest|i sum|r].
  - destruct Hs as (? & _ & _ & <- & <-). split; by apply submseteq_inserts_r.
  - destruct Hs as (? & _ & _ & _ & <- & <-). split; [by apply submseteq_inserts_l|done].
  - tauto.
Qed.
End Invariant.

(** ** Schedules

    The interleavings used to show that the aggregator does return, and in
    which orders the readings can arrive. *)

Section Schedules.
Variable w : multiWeatherProvider.
Variable city : string.

Lemma exec_app (sched1 sched2 : list move) (s : state) :
  exec w city (sched1 ++ sched2) s = exec w city sched1 s ≫= exec w city sched2.
Proof.
  revert s. induction sched1 as [|m sched1 IH]; intros s; cbn; [done|].
  destruct (step w city m s); [apply IH|done].
Qed.

Lemma exec_launch (rest : multiWeatherProvider) (T : chan float) (E : chan error)
    (gs : list goroutine) :
  exec w city (replicate (length rest) Agg) (mkState T E gs (Launching rest))
  = Some (mkState T E (gs ++ (GCall <$> rest)) (Launching [])).
Proof.
  revert gs. induction rest as [|p rest IH]; intros gs; cbn.
  - by rewrite app_nil_r.
  - rewrite IH. by rewrite <- app_assoc.
Qed.

Lemma go_step_call (j : nat) (s : state) (p : weatherProvider) :
  gos s !! j = Some (GCall p) →
  go_step city j s
  = Some (mkState (temps s) (errs s) (<[j := called city p]> (gos s)) (agg s)).
Proof. unfold go_step, called. intros ->. by destruct (p city). Qed.

Lemma exec_call_all (rest : multiWeatherProvider) (T : chan float) (E : chan error)
    (before : list goroutine) (a : aggregator) :
  exec w city (Go <$> seq (length before) (length rest))
    (mkState T E (before ++ (GCall <$> rest)) a)
  = Some (mkState T E (before ++ (called city <$> rest)) a).
Proof.
  revert before. induction rest as [|p rest IH]; intros before; [done|].
  cbn [length seq fmap list_fmap exec step].
  rewrite (go_step_call _ _ p) by (by apply list_lookup_middle). cbn.
  rewrite insert_app_r_alt, Nat.sub_diag by done. cbn.
  specialize (IH (before ++ [called city p])).
  rewrite length_app, Nat.add_1_r, <- !app_assoc in IH. exact IH.
Qed.

Lemma sending_insert (vs : list float) (sent : list nat) (j : nat) :
  <[j := GExit]> (sending vs sent) = sending vs (sent ++ [j]).
Proof.
  apply list_eq. intros i. unfold sending. destruct (decide (j = i)) as [->|Hne].
  - rewrite list_lookup_insert, !list_lookup_imap, length_imap.
    destruct (vs !! i) as [v|] eqn:Hv; cbn.
    + apply lookup_lt_Some in Hv. rewrite decide_True by done.
      rewrite decide_True by (apply elem_of_app; right; apply list_elem_of_here). done.
    + apply lookup_ge_None in Hv. rewrite decide_False by lia. done.
  - rewrite list_lookup_insert_ne, !list_lookup_imap by done.
    destruct (vs !! i) as [v|]; cbn; [|done]. f_equal.
    destruct (decide (i ∈ sent)) as [Hi|Hi].
    + rewrite decide_True by (apply elem_of_app; by left). done.
    + rewrite decide_False; [done|].
      intros [?|Hx%list_elem_of_singleton]%elem_of_app; [done|]. by subst.
Qed.

Lemma exec_send_all (vs : list float) (l : list (nat * float)) (sent : list nat)
    (tb : list float) (n : nat) (E : chan error) (a : aggregator) :
  NoDup l.*1 → (∀ j, j ∈ l.*1 → j ∉ sent) → (∀ j v, (j, v) ∈ l → vs !! j = Some v) →
  length tb + length l ≤ n →
  exec w city (Go <$> l.*1) (mkState (mkChan tb n) E (sending vs sent) a)
  = Some (mkState (mkChan (tb ++ l.*2) n) E (sending vs (sent ++ l.*1)) a).
Proof.
  revert sent tb. induction l as [|[j v] l IH]; intros sent tb Hnd Hsent Hvs Hlen.
  - cbn. by rewrite !app_nil_r.
  - cbn in Hnd, Hlen. apply NoDup_cons in Hnd as [Hj Hnd].
    cbn [fmap list_fmap fst snd exec step]. unfold go_step. cbn [gos temps errs agg].
    assert (sending vs sent !! j = Some (GSend v None)) as ->.
    { unfold sending. rewrite list_lookup_imap, (Hvs j v) by apply list_elem_of_here.
      cbn. rewrite decide_False; [done|]. apply Hsent. cbn. apply list_elem_of_here. }
    unfold can_send. cbn [buf cap]. rewrite bool_decide_eq_true_2 by lia.
    rewrite sending_insert. unfold send. cbn [buf cap].
    rewrite IH; [| done | | | ].
    + by rewrite <- !app_assoc.
    + intros i Hi [?|Hx%list_elem_of_singleton]%elem_of_app.
      * eapply Hsent; [|done]. cbn. by apply list_elem_of_further.
      * by subst.
    + intros i u Hi. apply Hvs. by apply list_elem_of_further.
    + rewrite length_app. cbn. lia.
Qed.

Lemma exec_receive_all (ts : list float) (n : nat) (E : chan error) (gs : list goroutine)
    (i : nat) (sum : float) :
  i + length ts ≤ length w →
  exec w city (replicate (length ts) SelectTemps) (mkState (mkChan ts n) E gs (Receiving i sum))
  = Some (mkState (mkChan [] n) E gs
            (Receiving (i + length ts) (fold_left PrimFloat.add ts sum))).
Proof.
  revert i sum. induction ts as [|t ts IH]; intros i sum Hlen; cbn.
  - by rewrite Nat.add_0_r.
  - cbn in Hlen. rewrite bool_decide_eq_true_2 by lia. unfold set_buf. cbn.
    rewrite IH by lia. by rewrite Nat.add_succ_r.
Qed.
End Schedules.

(** ** Which pairs the aggregator can return *)

Section Returns.
Variable w : multiWeatherProvider.
Variable city : string.

Lemma indexed_fst (vs : list float) : (indexed vs).*1 = seq 0 (length vs).
Proof.
  apply list_eq. intros i. unfold indexed.
  rewrite list_lookup_fmap, list_lookup_imap.
  destruct (vs !! i) as [v|] eqn:Hv; cbn.
  - symmetry. apply lookup_seq. split; [done|]. by eapply lookup_lt_Some.
  - symmetry. apply lookup_seq_ge. by apply lookup_ge_None.
Qed.

Lemma indexed_snd (vs : list float) : (indexed vs).*2 = vs.
Proof.
  apply list_eq. intros i. unfold indexed.
  rewrite list_lookup_fmap, list_lookup_imap. by destruct (vs !! i).
Qed.

Lemma indexed_lookup (vs : list float) (j : nat) (v : float) :
  (j, v) ∈ indexed vs → vs !! j = Some v.
Proof. intros (i & u & [= -> ->] & Hu)%elem_of_lookup_imap. done. Qed.

(** An arrival order of the readings is an order of the providers' indices. *)
Lemma arrival_indices (vs got : list float) :
  got ≡ₚ vs → ∃ l, l ≡ₚ indexed vs ∧ l.*2 = got.
Proof.
  intros Hp. rewrite <- (indexed_snd vs) in Hp.
  apply Permutation_map_inv in Hp as (l & -> & Hl). by exists l.
Qed.

Lemma readings_ok (vs : list float) : readings ((λ v, (v, None)) <$> vs) = vs.
Proof. induction vs as [|v vs IH]; [done|]. rewrite fmap_cons, readings_cons, IH. done. Qed.

Lemma failures_ok (vs : list float) : failures ((λ v, (v, @None string)) <$> vs) = [].
Proof. induction vs as [|v vs IH]; [done|]. rewrite fmap_cons, failures_cons, IH. done. Qed.

Lemma called_ok (vs : list float) :
  measure w city = (λ v, (v, None)) <$> vs → called city <$> w = sending vs [].
Proof.
  intros Hm. apply list_eq. intros i. unfold sending.
  rewrite list_lookup_imap.
  replace (called city <$> w) with ((λ o : outcome, GSend o.1 o.2) <$> measure w city)
    by (unfold measure; by rewrite <- list_fmap_compose).
  rewrite Hm, <- list_fmap_compose, list_lookup_fmap.
  destruct (vs !! i); cbn; [|done]. rewrite decide_False by apply not_elem_of_nil. done.
Qed.

(** When every provider succeeds, the readings can arrive in any order. *)
Lemma exec_arrival (vs : list float) (l : list (nat * float)) :
  measure w city = (λ v, (v, None)) <$> vs →
  l ≡ₚ indexed vs →
  exec w city (arrival_schedule (length w) l.*1) (init w)
  = Some (mkState (mkChan [] (length w)) (mkChan [] (length w)) (sending vs l.*1)
            (Returned (mean (length w) l.*2, None))).
Proof.
  intros Hm Hl.
  assert (length vs = length w) as Hvs.
  { rewrite <- (measure_length w city), Hm. by rewrite length_fmap. }
  assert (length l = length w) as Hlen.
  { rewrite Hl. unfold indexed. by rewrite length_imap. }
  unfold arrival_schedule, init, make_chan.
  rewrite exec_app, exec_launch. cbn [mbind option_bind app].
  cbn [exec step agg_step agg temps errs gos].
  rewrite exec_app, (exec_call_all w city w _ _ [] _ : exec _ _ (Go <$> seq 0 _) _ = _).
  cbn [mbind option_bind app]. rewrite (called_ok vs Hm).
  rewrite exec_app, (exec_send_all w city vs l [] []).
  - cbn [mbind option_bind app].
    replace (replicate (length w) SelectTemps) with (replicate (length l.*2) SelectTemps)
      by (by rewrite length_fmap, Hlen).
    rewrite exec_app, exec_receive_all by (rewrite length_fmap; lia).
    cbn [mbind option_bind exec step agg_step agg temps errs gos Nat.add].
    rewrite bool_decide_eq_false_2 by (rewrite length_fmap; lia).
    done.
  - rewrite Hl, indexed_fst. apply NoDup_seq.
  - intros j _. apply not_elem_of_nil.
  - intros j v Hj. apply indexed_lookup. by rewrite <- Hl.
  - cbn. lia.
Qed.

Lemma returns_arrival (vs got : list float) :
  measure w city = (λ v, (v, None)) <$> vs →
  got ≡ₚ vs → returns w city (mean (length w) got, None).
Proof.
  intros Hm (l & Hl & <-)%arrival_indices.
  eexists _, _. split; [by apply (exec_arrival vs l)|done].
Qed.

(** Whatever the interleaving, a returned pair is the mean of all readings
    in their order of arrival, or [0] and the error of a provider. *)
Lemma returns_result_ok (r : float * error) : returns w city r → result_ok w city r.
Proof.
  intros (sched & s & Hs & Ha).
  assert (inv w city s) as (_ & _ & Hi) by (apply inv_reachable; by exists sched).
  rewrite Ha in Hi. tauto.
Qed.

Lemma returns_all_ok_iff (vs : list float) (r : float * error) :
  measure w city = (λ v, (v, None)) <$> vs →
  returns w city r ↔ ∃ got, got ≡ₚ vs ∧ r = (mean (length w) got, None).
Proof.
  intros Hm. split.
  - intros [(_ & got & Hgot & ->)|(_ & Hr)]%returns_result_ok.
    + exists got. by rewrite Hm, readings_ok in Hgot.
    + rewrite Hm, failures_ok in Hr. by apply elem_of_nil in Hr.
  - intros (got & Hgot & ->). by apply (returns_arrival vs).
Qed.
End Returns.

(** ** Termination

    Every move uses up a bounded supply, and the only states without an
    enabled move are those in which the call has returned. *)

Section Termination.
Variable w : multiWeatherProvider.
Variable city : string.

Lemma go_weight_insert (l : list goroutine) (j : nat) (g g' : goroutine) :
  l !! j = Some g →
  sum_list_with go_weight (<[j := g']> l) + go_weight g
  = sum_list_with go_weight l + go_weight g'.
Proof.
  intros (l1 & l2 & -> & ->)%(gos_split _ _ _ g').
  rewrite !sum_list_with_app. cbn. lia.
Qed.

(** Every move uses up one of the moves left. *)
Lemma step_moves_left (m : move) (s s' : state) :
  step w city m s = Some s' → moves_left (length w) s' < moves_left (length w) s.
Proof.
  unfold moves_left. destruct m as [| | |j]; cbn.
  - unfold agg_step. destruct (agg s) as [[|p rest]|i sum|r]; [..|done].
    + intros [= <-]. cbn. lia.
    + intros [= <-]. cbn. rewrite sum_list_with_app. cbn. lia.
    + case_bool_decide; [done|]. intros [= <-]. cbn. lia.
  - unfold select_temps. destruct (agg s) as [rest|i sum|r]; [done| |done].
    destruct (buf (temps s)); [done|]. case_bool_decide; [|done].
    intros [= <-]. cbn. lia.
  - unfold select_errs. destruct (agg s) as [rest|i sum|r]; [done| |done].
    destruct (buf (errs s)); [done|]. case_bool_decide; [|done].
    intros [= <-]. cbn. lia.
  - unfold go_step. destruct (gos s !! j) as [[p|k err|]|] eqn:Hj; [| |done..].
    + destruct (p city) as [k err]. intros [= <-]. cbn.
      pose proof (go_weight_insert _ _ _ (GSend k err) Hj). cbn in *. lia.
    + pose proof (go_weight_insert _ _ _ GExit Hj).
      destruct err; [destruct (can_send (errs s))|destruct (can_send (temps s))];
        [|done| |done]; intros [= <-]; cbn in *; lia.
Qed.

(** No interleaving is longer than [4 * len(w) + 2] moves. *)
Lemma exec_bounded (sched : list move) (s s' : state) :
  exec w city sched s = Some s' →
  length sched + moves_left (length w) s' ≤ moves_left (length w) s.
Proof.
  revert s. induction sched as [|m sched IH]; intros s; cbn.
  - by intros [= <-].
  - destruct (step w city m s) as [s1|] eqn:Hm; [|done].
    intros Hs%IH. apply step_moves_left in Hm. lia.
Qed.

Lemma exec_init_bounded (sched : list move) (s : state) :
  exec w city sched (init w) = Some s → length sched ≤ 4 * length w + 2.
Proof. intros Hs%exec_bounded. unfold moves_left in Hs. cbn in Hs. lia. Qed.

(** A goroutine that holds its result can always send it. *)
Lemma go_step_send (s : state) (j : nat) (k : float) (err : error) :
  inv w city s → gos s !! j = Some (GSend k err) →
  go_step city j s
  = Some (match err with
          | Some _ => mkState (temps s) (send (errs s) err) (<[j := GExit]> (gos s)) (agg s)
          | None => mkState (send (temps s) k) (errs s) (<[j := GExit]> (gos s)) (agg s)
          end).
Proof.
  intros Hs Hj. pose proof Hs as (Ht & He & _).
  apply inv_due in Hs as [HT%submseteq_length HE%submseteq_length].
  pose proof (readings_failures_length (measure w city)) as Hlen.
  rewrite measure_length in Hlen.
  unfold temps_due, errs_due in *. rewrite length_app in HT, HE.
  unfold go_step. rewrite Hj.
  destruct (pending_bind_insert city _ _ _ GExit Hj) as (o1 & o2 & Ho & _).
  rewrite Ho, !readings_app, !failures_app, !length_app in *.
  cbn [pending] in HT, HE. rewrite readings_singleton in HT. rewrite failures_singleton in HE.
  destruct err as [msg|]; unfold can_send; cbn in *; by rewrite bool_decide_eq_true_2 by lia.
Qed.

Lemma all_exited_pending (gs : list goroutine) :
  (∀ g, g ∈ gs → g = GExit) → gs ≫= pending city = [].
Proof.
  induction gs as [|g gs IH]; intros Hgs; [done|].
  rewrite bind_cons, IH by (intros; apply Hgs; by apply list_elem_of_further).
  by rewrite (Hgs g) by apply list_elem_of_here.
Qed.

(** A reachable state in which no move is enabled is one in which the
    aggregator has returned and every goroutine has exited. *)
Lemma stuck_returned (s : state) :
  reachable w city s → (∀ m, step w city m s = None) →
  (∃ r, agg s = Returned r) ∧ ∀ g, g ∈ gos s → g = GExit.
Proof.
  intros Hs%inv_reachable Hstuck.
  assert (∀ g, g ∈ gos s → g = GExit) as Hgos.
  { intros g [j Hj]%list_elem_of_lookup. specialize (Hstuck (Go j)). cbn in Hstuck.
    destruct g as [p|k err|]; [| |done].
    - by rewrite (go_step_call city j s p Hj) in Hstuck.
    - by rewrite (go_step_send s j k err Hs Hj) in Hstuck. }
  split; [|done]. destruct Hs as (_ & _ & Hi).
  pose proof (Hstuck Agg) as HA. pose proof (Hstuck SelectTemps) as HT.
  pose proof (Hstuck SelectErrs) as HE. cbn in HA, HT, HE.
  unfold agg_step, select_temps, select_errs in *.
  destruct (agg s) as [[|p rest]|i sum|r]; [done|done| |by eexists].
  case_bool_decide as Hlt; [|done]. exfalso.
  destruct Hi as (got & Hgot & _ & _ & HTd & HEd).
  unfold temps_due, errs_due in *. rewrite (all_exited_pending _ Hgos) in HTd, HEd.
  destruct (buf (temps s)); [|done]. destruct (buf (errs s)); [|done].
  cbn in HTd, HEd. rewrite app_nil_r in HTd.
  apply Permutation_length in HTd, HEd.
  pose proof (readings_failures_length (measure w city)) as Hlen.
  rewrite measure_length in Hlen. change (failures []) with (@nil error) in HEd.
  cbn in HEd. lia.
Qed.
End Termination.

(** ** Properties of the aggregator *)

Lemma measure_all_ok (w : multiWeatherProvider) (city : string) :
  Forall (λ p : weatherProvider, (p city).2 = None) w →
  measure w city = (λ v, (v, None)) <$> (measure w city).*1.
Proof.
  induction 1 as [|p w Hp _ IH]; [done|].
  unfold measure in *. rewrite !fmap_cons, <- IH. f_equal.
  destruct (p city) as [k e]. cbn in *. by subst.
Qed.

Lemma failures_provider (w : multiWeatherProvider) (city : string) (e : error) :
  e ∈ failures (measure w city) → e ≠ None ∧ ∃ p, p ∈ w ∧ (p city).2 = e.
Proof.
  intros He. split; [by eapply failures_not_nil|].
  unfold failures in He. apply list_elem_of_bind in He as (o & He & Ho).
  apply list_elem_of_fmap in Ho as (p & -> & Hp). exists p. split; [done|].
  unfold failure in He. destruct (p city).2; [|by apply elem_of_nil in He].
  by apply list_elem_of_singleton in He.
Qed.

Lemma provider_failure (w : multiWeatherProvider) (city : string) (p : weatherProvider) :
  p ∈ w → (p city).2 ≠ None → (p city).2 ∈ failures (measure w city).
Proof.
  intros Hp He. unfold failures. apply list_elem_of_bind. exists (p city). split.
  - unfold failure. destruct (p city).2; [apply list_elem_of_here|done].
  - unfold measure. apply list_elem_of_fmap. by exists p.
Qed.

(** C1, as amended: when every provider of a non-empty set succeeds, with the
    values [vs],
    the call returns a nil error and the mean of the values: their float64
    sum, accumulated from [0.0] in the order they arrive, divided by
    [float64(len(w))].  The call does return: one interleaving returns the
    mean of [vs] summed in the order of the providers, no interleaving is
    longer than [4 * len(w) + 2] moves, and when no move is left the
    aggregator has returned.  For the readings 20.0, 22.0 and 24.0, in whatever
    order of providers and of arrival, it returns exactly 22.0 and nil. *)
Theorem aggregate_mean (w : multiWeatherProvider) (city : string) (vs : list float) :
  w ≠ [] →
  measure w city = (λ v, (v, None)) <$> vs →
  returns w city (mean (length w) vs, None)
  ∧ (∀ sched s, exec w city sched (init w) = Some s →
       length sched ≤ 4 * length w + 2
       ∧ ((∀ m, step w city m s = None) → ∃ r, agg s = Returned r))
  ∧ (∀ r, returns w city r → ∃ got, got ≡ₚ vs ∧ r = (mean (length w) got, None))
  ∧ (vs ≡ₚ [20; 22; 24]%float → ∀ r, returns w city r → r = (22%float, None)).
Proof.
  intros _ Hm. split; [|split; [|split]].
  - by apply (returns_arrival w city vs).
  - intros sched s Hs. split; [by eapply exec_init_bounded|].
    intros Hstuck. apply (stuck_returned w city s); [by exists sched|done].
  - intros r Hr. by apply (returns_all_ok_iff w city vs r Hm).
  - intros Hvs r (got & Hgot & ->)%(returns_all_ok_iff w city vs r Hm).
    assert (length w = 3) as ->.
    { rewrite <- (measure_length w city), Hm, length_fmap. by rewrite Hvs. }
    rewrite Hvs in Hgot. symmetry in Hgot.
    apply permutations_Permutation in Hgot. vm_compute in Hgot.
    repeat (apply elem_of_cons in Hgot as [->|Hgot]; [reflexivity|]).
    by apply elem_of_nil in Hgot.
Qed.

Lemma aggregate_mean_witness :
  returns [ok 20; ok 22; ok 24]%float "Paris" (22%float, None).
Proof.
  apply (aggregate_mean [ok 20; ok 22; ok 24]%float "Paris" [20; 22; 24]%float).
  - discriminate.
  - reflexivity.
Defined.

(** Two floats that a test tells apart are different. *)
Lemma float_neq (test : float → bool) (x y : float) : test x ≠ test y → x ≠ y.
Proof. congruence. Qed.

(** C1, counterexample: the value is not determined by the readings.  The
    same provider set, with the readings 0.1, 0.2 and 0.3, returns
    0.20000000000000004 when they arrive in this order and
    0.19999999999999998 when they arrive in the opposite order: no single
    value [sum(v1..vN)/N] is what the call returns. *)
Lemma arrival_order_counterexample :
  returns [ok 0.1; ok 0.2; ok 0.3]%float "Paris" (mean 3 [0.1; 0.2; 0.3]%float, None)
  ∧ returns [ok 0.1; ok 0.2; ok 0.3]%float "Paris" (mean 3 [0.3; 0.2; 0.1]%float, None)
  ∧ mean 3 [0.1; 0.2; 0.3]%float = 0.20000000000000004%float
  ∧ mean 3 [0.3; 0.2; 0.1]%float = 0.19999999999999998%float
  ∧ mean 3 [0.3; 0.2; 0.1]%float ≠ mean 3 [0.1; 0.2; 0.3]%float.
Proof.
  split; [|split; [|split; [|split]]].
  - exact (returns_arrival [ok 0.1; ok 0.2; ok 0.3]%float "Paris" [0.1; 0.2; 0.3]%float _
             eq_refl (reflexivity _)).
  - assert ([0.3; 0.2; 0.1]%float ≡ₚ [0.1; 0.2; 0.3]%float) as Hp.
    { by rewrite (Permutation_swap _ _ []), (Permutation_swap _ _ [_]),
        (Permutation_swap _ _ []). }
    exact (returns_arrival [ok 0.1; ok 0.2; ok 0.3]%float "Paris" [0.1; 0.2; 0.3]%float _
             eq_refl Hp).
  - reflexivity.
  - reflexivity.
  - apply (float_neq (PrimFloat.ltb 0.2)). by vm_compute.
Qed.

(** C6, counterexample: float64 addition is not associative, so the value
    depends on the order in which the readings are added: the providers
    0.1, 0.2, 0.3 can return 0.20000000000000004 and the same providers in
    the order 0.3, 0.2, 0.1 can return 0.19999999999999998. *)
Lemma permuted_providers_counterexample :
  [ok 0.3; ok 0.2; ok 0.1]%float ≡ₚ [ok 0.1; ok 0.2; ok 0.3]%float
  ∧ returns [ok 0.1; ok 0.2; ok 0.3]%float "Paris" (0.20000000000000004%float, None)
  ∧ returns [ok 0.3; ok 0.2; ok 0.1]%float "Paris" (0.19999999999999998%float, None)
  ∧ 0.20000000000000004%float ≠ 0.19999999999999998%float.
Proof.
  split; [|split; [|split]].
  - by rewrite (Permutation_swap _ _ []), (Permutation_swap _ _ [_]), (Permutation_swap _ _ []).
  - exact (returns_arrival [ok 0.1; ok 0.2; ok 0.3]%float "Paris" [0.1; 0.2; 0.3]%float _
              eq_refl (reflexivity _)).
  - exact (returns_arrival [ok 0.3; ok 0.2; ok 0.1]%float "Paris" [0.3; 0.2; 0.1]%float _
              eq_refl (reflexivity _)).
  - apply (float_neq (PrimFloat.ltb 0.2)). by vm_compute.
Qed.

(** C6, as amended: when every provider succeeds, a permutation of the
    provider set changes nothing in what the call can return: the pairs the
    permuted set can return are those the original set can return, each a nil
    error with the readings' float64 sum in their order of arrival divided
    by [float64(len(w))]. *)
Theorem aggregate_permutation (w w' : multiWeatherProvider) (city : string) :
  Forall (λ p : weatherProvider, (p city).2 = None) w →
  w' ≡ₚ w →
  ∀ r, returns w' city r
       ↔ returns w city r
         ∧ ∃ got, got ≡ₚ (measure w city).*1 ∧ r = (mean (length w) got, None).
Proof.
  intros Hok Hw r.
  assert (Forall (λ p : weatherProvider, (p city).2 = None) w') as Hok'
    by (by rewrite Hw).
  apply measure_all_ok in Hok, Hok'.
  assert ((measure w' city).*1 ≡ₚ (measure w city).*1) as Hvs
    by (unfold measure; by rewrite Hw).
  rewrite (returns_all_ok_iff w' city _ r Hok'), (returns_all_ok_iff w city _ r Hok).
  rewrite (Permutation_length Hw). setoid_rewrite Hvs. tauto.
Qed.

Lemma aggregate_permutation_witness :
  returns [ok 0.3; ok 0.2; ok 0.1]%float "Paris" (0.20000000000000004%float, None).
Proof.
  apply (aggregate_permutation [ok 0.1; ok 0.2; ok 0.3]%float
           [ok 0.3; ok 0.2; ok 0.1]%float "Paris").
  - repeat constructor.
  - by rewrite (Permutation_swap _ _ []), (Permutation_swap _ _ [_]), (Permutation_swap _ _ []).
  - split.
    + exact (returns_arrival [ok 0.1; ok 0.2; ok 0.3]%float "Paris" [0.1; 0.2; 0.3]%float _
              eq_refl (reflexivity _)).
    + exists [0.1; 0.2; 0.3]%float. split; reflexivity.
Defined.

(** One failing provider is enough for the aggregator to return its error
    while every other goroutine is still waiting for its provider. *)
Lemma exec_early_failure (w : multiWeatherProvider) (city : string) (j : nat)
    (p : weatherProvider) :
  w !! j = Some p → (p city).2 ≠ None →
  exec w city (early_failure_schedule (length w) j) (init w)
  = Some (mkState (mkChan [] (length w)) (mkChan [] (length w))
            (<[j := GExit]> (GCall <$> w)) (Returned (0%float, (p city).2))).
Proof.
  intros Hj Hp. pose proof (lookup_lt_Some _ _ _ Hj) as Hlt.
  unfold early_failure_schedule, init, make_chan.
  rewrite exec_app, exec_launch.
  cbn [mbind option_bind app exec step agg_step agg temps errs gos].
  rewrite (go_step_call city j _ p) by (simpl; rewrite list_lookup_fmap, Hj; done).
  cbn [temps errs gos agg]. unfold go_step, called. cbn [temps errs gos agg].
  rewrite list_lookup_insert_eq by (by rewrite length_fmap).
  destruct (p city).2 as [msg|] eqn:He; [|done].
  unfold can_send. cbn [buf cap]. rewrite bool_decide_eq_true_2 by (cbn; lia).
  rewrite list_insert_insert_eq. unfold select_errs, send, set_buf.
  cbn [temps errs gos agg buf cap app].
  by rewrite bool_decide_eq_true_2 by lia.
Qed.

(** C3, counterexample: on the empty provider set the call returns a nil
    error (with the value NaN), not a configuration error. *)
Lemma empty_set_counterexample : returns [] "Paris" (nan, None).
Proof. by exists [Agg; Agg], (mkState (mkChan [] 0) (mkChan [] 0) [] (Returned (nan, None))). Qed.

(** C3, as amended: on the empty provider set the call starts no goroutine
    and returns a nil error with the value [0.0 / float64(0)], a float64
    division of zero by zero, whose result is NaN (in Go it does not panic);
    it returns nothing else. *)
Theorem aggregate_empty (city : string) :
  returns [] city ((0 / float64_of_nat 0)%float, None)
  ∧ (0 / float64_of_nat 0)%float = nan
  ∧ ∀ sched s, exec [] city sched (init []) = Some s →
      gos s = [] ∧ ∀ r, agg s = Returned r → r = (nan, None).
Proof.
  split; [|split].
  - by exists [Agg; Agg], (mkState (mkChan [] 0) (mkChan [] 0) [] (Returned (nan, None))).
  - reflexivity.
  - intros sched s Hs.
    assert (inv [] city s) as (_ & _ & Hi) by (apply inv_reachable; by exists sched).
    destruct (agg s) as [rest|i sum|r].
    + destruct Hi as (started & Hw & Hl & _). symmetry in Hw.
      apply app_eq_nil in Hw as [-> _]. split; [by apply length_zero_iff_nil|done].
    + destruct Hi as (got & _ & _ & Hl & _). split; [by apply length_zero_iff_nil|done].
    + destruct Hi as (Hl & _ & _ & Hr). split; [by apply length_zero_iff_nil|].
      intros ? [= <-]. destruct Hr as [(_ & got & Hgot & ->)|[_ Hr]].
      * cbn in Hgot. by apply Permutation_nil_r in Hgot as ->.
      * by apply elem_of_nil in Hr.
Qed.

Lemma aggregate_empty_witness :
  gos (mkState (mkChan [] 0) (mkChan [] 0) [] (Returned (nan, None))) = []
  ∧ ∀ r, Returned (nan, None) = Returned r → r = (nan, None).
Proof.
  exact (proj2 (proj2 (aggregate_empty "Paris")) [Agg; Agg]
           (mkState (mkChan [] 0) (mkChan [] 0) [] (Returned (nan, None))) eq_refl).
Defined.

(** C5, counterexample: a provider that returns 5.0 beside its error; the
    aggregator returns 0 with that error, not the provider's pair. *)
Lemma single_provider_counterexample :
  returns [failing 5 "down"] "Paris" (0%float, Some "down")
  ∧ (0%float, Some "down") ≠ failing 5 "down" "Paris".
Proof.
  split.
  - eexists _, _. split.
    + by apply (exec_early_failure [failing 5 "down"] "Paris" 0 (failing 5 "down")).
    + reflexivity.
  - intros H. apply (f_equal fst) in H. revert H.
    apply (float_neq (PrimFloat.eqb 5)). by vm_compute.
Qed.

(** C5, as amended: with a single provider [p], the call returns the error of
    [p.temperature(city)] unchanged; when that error is nil the value is
    [(0.0 + v) / float64(1)] for the value [v] that [p] returned, and when it
    is not nil the value is [0], whatever [p] returned beside its error. *)
Theorem aggregate_single (p : weatherProvider) (city : string) (r : float * error) :
  returns [p] city r
  ↔ r = match (p city).2 with
        | None => (((0 + (p city).1) / 1)%float, None)
        | Some _ => (0%float, (p city).2)
        end.
Proof.
  destruct (p city) as [k e] eqn:Hp. cbn [fst snd]. split.
  - intros [(Hf & got & Hgot & ->)|(Hv & He)]%returns_result_ok.
    + unfold measure in *. cbn in Hf, Hgot. rewrite Hp in Hf, Hgot.
      destruct e as [msg|]; [done|]. cbn in Hgot.
      by apply Permutation_singleton_r in Hgot as ->.
    + unfold measure in He. cbn in He. rewrite Hp in He.
      destruct e as [msg|]; cbn in He; [|by apply elem_of_nil in He].
      apply list_elem_of_singleton in He. destruct r as [v e']. cbn in *. by subst.
  - intros ->. destruct e as [msg|].
    + pose proof (exec_early_failure [p] city 0 p eq_refl) as H.
      rewrite Hp in H. eexists _, _. split; [by apply H|]. reflexivity.
    + apply (returns_arrival [p] city [k] [k]); [|done].
      unfold measure. cbn. by rewrite Hp.
Qed.

Lemma aggregate_single_witness : returns [ok 21.5] "Paris" (21.5%float, None).
Proof. apply (aggregate_single (ok 21.5) "Paris"). reflexivity. Defined.

(** A returned pair with a non-nil error is [0] and the error of a provider. *)
Lemma failure_returned (w : multiWeatherProvider) (city : string) (r : float * error) :
  returns w city r → r.2 ≠ None → r.1 = 0%float ∧ ∃ p, p ∈ w ∧ (p city).2 = r.2.
Proof.
  intros [(_ & got & _ & ->)|(Hv & He)]%returns_result_ok Hr; [done|].
  split; [done|]. by apply failures_provider in He as [_ ?].
Qed.

(** C4: the aggregator fails by taking [case err := <-errs].  Whenever it
    does, in any reachable state, what it returns is [0] and the error at the
    head of [errs], the one failure it consumes; that error is not nil and is
    the very error some provider of the set returned.  Hence every returned
    pair with a non-nil error has the value [0] and a provider's error. *)
Theorem failure_passthrough (w : multiWeatherProvider) (city : string) :
  (∀ s s', reachable w city s → select_errs w s = Some s' →
     ∃ err es, buf (errs s) = err :: es ∧ agg s' = Returned (0%float, err)
       ∧ err ≠ None ∧ ∃ p, p ∈ w ∧ (p city).2 = err)
  ∧ (∀ r, returns w city r → r.2 ≠ None →
       r.1 = 0%float ∧ ∃ p, p ∈ w ∧ (p city).2 = r.2).
Proof.
  split.
  - intros s s' (_ & _ & Hi)%inv_reachable. unfold select_errs.
    destruct (agg s) as [rest|i sum|r]; [done| |done].
    destruct (buf (errs s)) as [|err es] eqn:Hb; [done|].
    case_bool_decide; [|done]. intros [= <-]. exists err, es.
    split; [done|]. split; [done|].
    destruct Hi as (got & _ & _ & _ & _ & HE).
    apply (failures_provider w city). rewrite <- HE. unfold errs_due. rewrite Hb.
    apply list_elem_of_here.
  - apply failure_returned.
Qed.

Lemma failure_passthrough_witness :
  (0%float, Some "down").1 = 0%float
  ∧ ∃ p, p ∈ [ok 20; failing 0 "down"; ok 24]%float ∧ (p "Paris").2 = Some "down".
Proof.
  apply (failure_passthrough [ok 20; failing 0 "down"; ok 24]%float "Paris").
  - eexists _, _. split.
    + by apply (exec_early_failure [ok 20; failing 0 "down"; ok 24]%float "Paris" 1
                  (failing 0 "down")).
    + reflexivity.
  - discriminate.
Defined.

(** C2: first failure wins.  In any state in which the aggregator is in its
    receive loop and [errs] holds an error, receiving it makes the aggregator
    return [0] and that error at once, whatever the other goroutines are
    doing and whatever is queued on [temps]; once it has returned, the
    aggregator makes no further move, so it receives nothing more.  When a
    provider fails, the aggregator can return its error while every other
    goroutine is still waiting for its provider, and whatever the interleaving
    the pair returned is a failure. *)
Theorem first_failure_wins (w : multiWeatherProvider) (city : string) :
  (∀ s i sum err es,
     agg s = Receiving i sum → i < length w → buf (errs s) = err :: es →
     step w city SelectErrs s
     = Some (mkState (temps s) (set_buf (errs s) es) (gos s) (Returned (0%float, err))))
  ∧ (∀ s r m, agg s = Returned r → aggregator_move m → step w city m s = None)
  ∧ (∀ j p, w !! j = Some p → (p city).2 ≠ None →
       exec w city (early_failure_schedule (length w) j) (init w)
       = Some (mkState (mkChan [] (length w)) (mkChan [] (length w))
                 (<[j := GExit]> (GCall <$> w)) (Returned (0%float, (p city).2))))
  ∧ (∀ p r, p ∈ w → (p city).2 ≠ None → returns w city r →
       r.1 = 0%float ∧ r.2 ≠ None).
Proof.
  split; [|split; [|split]].
  - intros s i sum err es Ha Hi Hb. cbn. unfold select_errs.
    by rewrite Ha, Hb, bool_decide_eq_true_2.
  - intros s r m Ha [-> | [-> | ->]]; cbn; unfold agg_step, select_temps, select_errs;
      by rewrite Ha.
  - apply exec_early_failure.
  - intros p r Hp He [(Hf & _)|(Hv & Hr)]%returns_result_ok.
    + apply (provider_failure w city p Hp) in He. rewrite Hf in He.
      by apply elem_of_nil in He.
    + split; [done|]. by eapply failures_not_nil.
Qed.

Lemma first_failure_wins_witness :
  exec [ok 20; failing 0 "down"; ok 24]%float "Paris" [Agg; Agg; Agg; Agg; Go 1; Go 1; SelectErrs]
    (init [ok 20; failing 0 "down"; ok 24]%float)
  = Some (mkState (mkChan [] 3) (mkChan [] 3) [GCall (ok 20); GExit; GCall (ok 24)]
            (Returned (0%float, Some "down"))).
Proof.
  apply (proj1 (proj2 (proj2 (first_failure_wins [ok 20; failing 0 "down"; ok 24]%float
                                 "Paris"))) 1 (failing 0 "down")).
  - reflexivity.
  - discriminate.
Defined.

(** C8: both channels are made with capacity [len(w)] and keep it.  In every
    reachable state, also after the aggregator has returned, a goroutine that
    holds its result can send it (its channel has room): it appends that one
    value to [temps] when the error is nil and to [errs] otherwise, leaves the
    other channel as it is, removes nothing, and exits; an exited goroutine
    never moves again. *)
Theorem no_producer_blocks (w : multiWeatherProvider) (city : string) :
  cap (temps (init w)) = length w ∧ cap (errs (init w)) = length w
  ∧ ∀ s, reachable w city s →
      cap (temps s) = length w ∧ cap (errs s) = length w
      ∧ length (buf (temps s)) ≤ length w ∧ length (buf (errs s)) ≤ length w
      ∧ (∀ j k err, gos s !! j = Some (GSend k err) →
           ∃ s', step w city (Go j) s = Some s'
             ∧ gos s' = <[j := GExit]> (gos s) ∧ agg s' = agg s
             ∧ ((err = None ∧ temps s' = send (temps s) k ∧ errs s' = errs s)
                ∨ (err ≠ None ∧ errs s' = send (errs s) err ∧ temps s' = temps s)))
      ∧ (∀ j, gos s !! j = Some GExit → step w city (Go j) s = None).
Proof.
  split; [done|]. split; [done|].
  intros s Hs%inv_reachable. pose proof Hs as (Ht & He & _).
  pose proof (inv_due w city s Hs) as [HT%submseteq_length HE%submseteq_length].
  pose proof (readings_failures_length (measure w city)) as Hlen.
  rewrite measure_length in Hlen.
  unfold temps_due, errs_due in *. rewrite length_app in HT, HE.
  split; [done|]. split; [done|]. split; [lia|]. split; [lia|]. split.
  - intros j k err Hj. cbn. rewrite (go_step_send w city s j k err Hs Hj).
    destruct err as [msg|]; eexists; (split; [done|]); cbn; eauto 10.
  - intros j Hj. cbn. unfold go_step. by rewrite Hj.
Qed.

Lemma no_producer_blocks_witness :
  ∃ s', step [ok 20; failing 0 "down"; ok 24]%float "Paris" (Go 2)
          (mkState (mkChan [] 3) (mkChan [] 3) [GCall (ok 20); GExit; GSend 24 None]
             (Returned (0%float, Some "down")))
        = Some s'
    ∧ buf (temps s') = [24%float] ∧ buf (errs s') = [].
Proof.
  destruct (proj2 (proj2 (no_producer_blocks [ok 20; failing 0 "down"; ok 24]%float "Paris"))
              (mkState (mkChan [] 3) (mkChan [] 3) [GCall (ok 20); GExit; GSend 24 None]
                 (Returned (0%float, Some "down"))))
    as (_ & _ & _ & _ & Hsend & _).
  - by exists [Agg; Agg; Agg; Agg; Go 1; Go 1; SelectErrs; Go 2].
  - destruct (Hsend 2 24%float None eq_refl) as (s' & Hs' & _ & _ & [(_ & Ht & He)|(Hn & _)]).
    + exists s'. rewrite Ht, He. by split.
    + by destruct Hn.
Defined.

Example SplitN_city : SplitN "/weather/New York/7" "/" 3 = [""; "weather"; "New York/7"].
Proof. reflexivity. Qed.

(** ** Properties of the providers *)

(** C7: every provider returns degrees Celsius.  When its request and its
    decoding succeed, [openWeatherMap] returns its Kelvin reading minus
    273.15, [forecastIo] returns its Fahrenheit reading [f] as
    [(f - 32) * 5 / 9], and [weatherUnderground] returns its [temp_c] field
    unchanged, each with a nil error. *)
Theorem providers_return_celsius (W : World) (city : string) :
  (∀ body Kelvin,
     http_Get W (openWeatherMap.url city) = (body, None) →
     decode_main_temp W body = (Kelvin, None) →
     openWeatherMap.temperature W city = ((Kelvin - 273.15)%float, None))
  ∧ (∀ w body Fahrenheit,
       http_Get W (forecastIo.url W w (openWeatherMap.coordinates W city).1) = (body, None) →
       decode_currently_temperature W body = (Fahrenheit, None) →
       forecastIo.temperature W w city = (((Fahrenheit - 32) * 5 / 9)%float, None))
  ∧ (∀ w body Celsius,
       http_Get W (weatherUnderground.url w city) = (body, None) →
       decode_current_observation_temp_c W body = (Celsius, None) →
       weatherUnderground.temperature W w city = (Celsius, None)).
Proof.
  split; [|split].
  - intros body k Hg Hd. unfold openWeatherMap.temperature. by rewrite Hg, Hd.
  - intros w body f Hg Hd. unfold forecastIo.temperature, openWeatherMap.coordinates in *.
    destruct (http_Get W (openWeatherMap.url city)) as [resp [msg|]]; cbn in *.
    + unfold forecastIo.forecast. by rewrite Hg, Hd.
    + destruct (decode_coord W resp) as [d [msg|]]; cbn in *;
        unfold forecastIo.forecast; by rewrite Hg, Hd.
  - intros w body c Hg Hd. unfold weatherUnderground.temperature. by rewrite Hg, Hd.
Qed.

Lemma providers_return_celsius_witness :
  openWeatherMap.temperature fair_weather "Paris" = (26.850000000000023%float, None).
Proof.
  apply (proj1 (providers_return_celsius fair_weather "Paris") "ok" 300%float); reflexivity.
Defined.

(** C9: [openWeatherMap.coordinates] returns a nil error on every path; when
    its request or its decoding fails it returns [Coord{}] and nil.  So
    [forecastIo.temperature] never returns at line 41: it always goes on to
    request the forecast for the coordinates it was given, which after a failed
    lookup are (0, 0). *)
Theorem coordinates_error_is_nil (W : World) (city : string) :
  (openWeatherMap.coordinates W city).2 = None
  ∧ (∀ w, forecastIo.temperature W w city
          = forecastIo.forecast W w (openWeatherMap.coordinates W city).1)
  ∧ ((http_Get W (openWeatherMap.url city)).2 ≠ None
     ∨ (decode_coord W (http_Get W (openWeatherMap.url city)).1).2 ≠ None →
     openWeatherMap.coordinates W city = (mkCoord 0 0, None)
     ∧ ∀ w, forecastIo.temperature W w city = forecastIo.forecast W w (mkCoord 0 0)).
Proof.
  unfold forecastIo.temperature, openWeatherMap.coordinates.
  destruct (http_Get W (openWeatherMap.url city)) as [resp [msg|]]; cbn.
  - done.
  - destruct (decode_coord W resp) as [d [msg|]]; cbn; [done|].
    split; [done|]. split; [done|]. by intros [?|?].
Qed.

Lemma coordinates_error_is_nil_witness :
  openWeatherMap.coordinates no_network "Paris" = (mkCoord 0 0, None)
  ∧ ∀ w, forecastIo.temperature no_network w "Paris"
         = forecastIo.forecast no_network w (mkCoord 0 0).
Proof.
  apply (proj2 (proj2 (coordinates_error_is_nil no_network "Paris"))).
  left. discriminate.
Defined.

(** ** Properties of the handlers *)

(** C10: nothing checks that the city is not empty.  For the paths
    ["/weather/"] and ["/coordinates/"] the handlers take the empty string
    as the city and pass it on.  Called with the empty city, the aggregator
    starts a goroutine for every provider, each of which calls its provider
    with the empty string (for the three providers of [mw], requesting the
    URLs built from it); it returns only after all goroutines are started, and
    a failure it returns is the error of a provider, not of a check of its
    own. *)
Theorem empty_city_not_rejected (W : World) (w : multiWeatherProvider) :
  weather W "/weather/" = Some (mw W, "")
  ∧ coordinates W "/coordinates/" = Some (openWeatherMap.coordinates W "")
  ∧ exec w "" (replicate (length w) Agg ++ [Agg] ++ (Go <$> seq 0 (length w))) (init w)
    = Some (mkState (mkChan [] (length w)) (mkChan [] (length w))
              (called "" <$> w) (Receiving 0 0%float))
  ∧ called "" <$> mw W
    = [ called "" (openWeatherMap.temperature W);
        called "" (weatherUnderground.temperature W (weatherUnderground.mk "1df429f462bc7ee1"));
        called "" (forecastIo.temperature W
                     (forecastIo.mk "12e03ff21975540f37c2b8cc79e3093b")) ]
  ∧ openWeatherMap.url "" = "http://api.openweathermap.org/data/2.5/weather?q="
  ∧ weatherUnderground.url (weatherUnderground.mk "1df429f462bc7ee1") ""
    = "http://api.wunderground.com/api/1df429f462bc7ee1/conditions/q/.json"
  ∧ (∀ sched s r, exec w "" sched (init w) = Some s → agg s = Returned r →
       length (gos s) = length w
       ∧ (r.2 ≠ None → ∃ p, p ∈ w ∧ (p "").2 = r.2)).
Proof.
  split; [reflexivity|]. split; [reflexivity|]. split; [|repeat (split; [reflexivity|])].
  - unfold init, make_chan. rewrite exec_app, exec_launch.
    cbn [mbind option_bind app exec step agg_step agg temps errs gos].
    apply (exec_call_all w "" w _ _ []).
  - intros sched s r Hs Ha. split.
    + assert (inv w "" s) as (_ & _ & Hi) by (apply inv_reachable; by exists sched).
      rewrite Ha in Hi. tauto.
    + intros Hr. assert (returns w "" r) as Hret by (by exists sched, s).
      by apply failure_returned in Hret as [_ ?].
Qed.

Lemma empty_city_not_rejected_witness :
  length (gos (mkState (mkChan [] 3) (mkChan [] 3) [GExit; GCall (ok 22); GCall (ok 24)]
                 (Returned (0%float, Some "no city")))) = 3
  ∧ ((0%float, Some "no city").2 ≠ None →
     ∃ p, p ∈ [failing 0 "no city"; ok 22; ok 24]%float ∧ (p "").2 = Some "no city").
Proof.
  apply (proj2 (proj2 (proj2 (proj2 (proj2 (proj2
          (empty_city_not_rejected no_network [failing 0 "no city"; ok 22; ok 24]%float))))))
          [Agg; Agg; Agg; Agg; Go 0; Go 0; SelectErrs]); reflexivity.
Defined.

(** ** More on the aggregator, the providers and the handlers *)

(** *** Strings *)

Lemma append_cons (c : ascii) (a s : string) : String c a +:+ s = String c (a +:+ s).
Proof. reflexivity. Qed.

Lemma append_nil_l (s : string) : "" +:+ s = s.
Proof. reflexivity. Qed.

Lemma substring_all (s : string) : String.substring 0 (String.length s) s = s.
Proof. induction s as [|c s IH]; [done|]. cbn. by rewrite IH. Qed.

Lemma substring_append_take (a s : string) : String.substring 0 (String.length a) (a +:+ s) = a.
Proof.
  induction a as [|c a IH]; [by destruct s|]. rewrite append_cons. cbn. by rewrite IH.
Qed.

Lemma substring_append_drop (a s : string) (m : nat) :
  String.substring (String.length a) m (a +:+ s) = String.substring 0 m s.
Proof. induction a as [|c a IH]; [done|]. rewrite append_cons. cbn. by rewrite IH. Qed.

Lemma string_length_append (a s : string) :
  String.length (a +:+ s) = String.length a + String.length s.
Proof. induction a as [|c a IH]; [done|]. rewrite append_cons. cbn. by rewrite IH. Qed.

Lemma string_append_assoc (a b c : string) : (a +:+ b) +:+ c = a +:+ b +:+ c.
Proof. induction a as [|x a IH]; [done|]. rewrite !append_cons. by rewrite IH. Qed.

Lemma prefix_slash (b : ascii) (s : string) :
  String.prefix "/" (String b s) = bool_decide ("/"%char = b).
Proof.
  destruct (String.prefix "/" (String b s)) eqn:E; symmetry.
  - apply String.prefix_correct in E. cbn in E. apply bool_decide_eq_true_2.
    destruct s; by injection E.
  - apply bool_decide_eq_false_2. intros <-.
    assert (String.prefix "/" (String "/" s) = true) as E'; [|congruence].
    apply String.prefix_correct. cbn. by destruct s.
Qed.

Lemma index_slash_append (seg rest : string) :
  String.index 0 "/" seg = None →
  String.index 0 "/" (seg +:+ "/" +:+ rest) = Some (String.length seg).
Proof.
  induction seg as [|b seg IH].
  { intros _. change ("" +:+ "/" +:+ rest) with (String "/" rest).
    cbn [String.index]. by rewrite prefix_slash, bool_decide_eq_true_2. }
  rewrite append_cons. cbn [String.index String.length]. rewrite !prefix_slash.
  case_bool_decide; [done|].
  destruct (String.index 0 "/" seg); [done|]. intros _. by rewrite IH.
Qed.

(** Cutting a string in three. *)
Lemma substring_split2 (s : string) (i : nat) :
  s = String.substring 0 i s +:+ String.substring i (String.length s - i) s.
Proof.
  revert i. induction s as [|c s IH]; intros [|i]; try done.
  - cbn. by rewrite substring_all.
  - cbn [String.substring String.length Nat.sub]. rewrite append_cons. by rewrite <- IH.
Qed.

Lemma substring_split3 (s : string) (i k : nat) :
  s = String.substring 0 i s +:+ String.substring i k s
        +:+ String.substring (i + k) (String.length s - (i + k)) s.
Proof.
  revert i. induction s as [|c s IH]; intros i.
  - by destruct i, k.
  - destruct i as [|i].
    + cbn [Nat.add]. change (String.substring 0 0 (String c s)) with "". rewrite append_nil_l.
      apply substring_split2.
    + cbn [String.substring String.length Nat.sub Nat.add]. rewrite append_cons. by rewrite <- IH.
Qed.

(** *** The aggregator *)

Lemma outcomes_all_ok (os : list outcome) :
  Forall (λ o, o.2 = None) os → os = (λ v, (v, None)) <$> readings os.
Proof.
  induction 1 as [|[k e] os He _ IH]; [done|]. cbn in He. subst e.
  rewrite readings_cons. cbn. by rewrite <- IH.
Qed.

(** Every pair allowed by the invariant is returned by some interleaving. *)
Lemma result_ok_returns (w : multiWeatherProvider) (city : string) (r : float * error) :
  result_ok w city r → returns w city r.
Proof.
  intros [(Hf & got & Hgot & ->)|(Hv & He)].
  - apply failures_nil_all_ok, outcomes_all_ok in Hf.
    by apply (returns_arrival w city (readings (measure w city))).
  - destruct r as [v e]. cbn in Hv, He. subst v.
    apply failures_provider in He as (Hne & p & [j Hj]%list_elem_of_lookup & <-).
    eexists _, _. split.
    + by apply (exec_early_failure w city j p Hj).
    + reflexivity.
Qed.

Lemma returns_iff_result_ok (w : multiWeatherProvider) (city : string) (r : float * error) :
  returns w city r ↔ result_ok w city r.
Proof. split; [apply returns_result_ok|apply result_ok_returns]. Qed.

(** X1: the pairs the call can return, for any provider set.  When every
    provider succeeds they are the nil error with the float64 mean of the
    readings in each order of arrival; when some provider fails they are [0]
    with the error of each failing provider.  Nothing else is returned, and
    each of these is returned by some interleaving. *)
Theorem returns_characterised (w : multiWeatherProvider) (city : string) (r : float * error) :
  returns w city r
  ↔ (Forall (λ p : weatherProvider, (p city).2 = None) w
     ∧ ∃ got, got ≡ₚ (measure w city).*1 ∧ r = (mean (length w) got, None))
    ∨ (r.1 = 0%float ∧ r.2 ≠ None ∧ ∃ p, p ∈ w ∧ (p city).2 = r.2).
Proof.
  rewrite returns_iff_result_ok. unfold result_ok. split.
  - intros [(Hf & got & Hgot & ->)|(Hv & He)].
    + left. apply failures_nil_all_ok in Hf. split.
      * apply Forall_fmap in Hf. exact Hf.
      * exists got. by rewrite <- readings_all_ok.
    + right. split; [done|]. by apply failures_provider.
  - intros [(Hok & got & Hgot & ->)|(Hv & Hne & p & Hp & He)].
    + left. assert (Forall (λ o : outcome, o.2 = None) (measure w city)) as Hf
        by (by apply Forall_fmap).
      split; [by apply failures_nil_all_ok|]. exists got. by rewrite readings_all_ok.
    + right. split; [done|]. rewrite <- He. apply provider_failure; [done|]. by rewrite He.
Qed.

Lemma returns_characterised_witness :
  returns [ok 20; failing 0 "down"; failing 0 "slow"]%float "Paris" (0%float, Some "slow").
Proof.
  apply (returns_characterised [ok 20; failing 0 "down"; failing 0 "slow"]%float "Paris").
  right. split; [reflexivity|]. split; [discriminate|].
  exists (failing 0 "slow"). split; [|reflexivity].
  apply list_elem_of_further, list_elem_of_further, list_elem_of_here.
Defined.

Lemma result_ok_outcomes (w w' : multiWeatherProvider) (city city' : string)
    (r : float * error) :
  measure w city ≡ₚ measure w' city' → result_ok w city r → result_ok w' city' r.
Proof.
  intros Hm. unfold result_ok.
  assert (length w = length w') as ->.
  { rewrite <- (measure_length w city), <- (measure_length w' city'). by rewrite Hm. }
  assert (readings (measure w city) ≡ₚ readings (measure w' city')) as Hr
    by (unfold readings; by rewrite Hm).
  assert (failures (measure w city) ≡ₚ failures (measure w' city')) as Hf
    by (unfold failures; by rewrite Hm).
  intros [(Hnil & got & Hgot & ->)|(Hv & He)].
  - left. split.
    + rewrite Hnil in Hf. by apply Permutation_nil_l in Hf.
    + exists got. by rewrite <- Hr.
  - right. split; [done|]. by rewrite <- Hf.
Qed.

(** X2: what the call can return depends only on the multiset of pairs the
    providers return.  Two provider sets, each with its city, whose
    providers return the same pairs up to order, can return the same pairs:
    the order of the providers, which provider gave which result, and the
    city itself matter only through the providers' results. *)
Theorem returns_depends_on_outcomes (w w' : multiWeatherProvider) (city city' : string) :
  measure w city ≡ₚ measure w' city' →
  ∀ r, returns w city r ↔ returns w' city' r.
Proof.
  intros Hm r. rewrite !returns_iff_result_ok.
  split; apply result_ok_outcomes; [done|by symmetry].
Qed.

Lemma returns_depends_on_outcomes_witness :
  returns [failing 0 "down"; ok 20]%float "Paris" (0%float, Some "down")
  ↔ returns [ok 20; failing 0 "down"]%float "Lyon" (0%float, Some "down").
Proof.
  apply (returns_depends_on_outcomes [failing 0 "down"; ok 20]%float
           [ok 20; failing 0 "down"]%float "Paris" "Lyon").
  apply Permutation_swap.
Defined.




(** X4: the receive loop keeps its accounts.  In every reachable state of
    the loop, the counter [i] is at most [len(w)], [sum] is the float64 sum of
    [i] readings received so far, and these readings together with what is
    queued on [temps] are readings of distinct providers of the set (no
    reading is received twice, none is invented); likewise what is queued on
    [errs] are errors of distinct failing providers. *)
Theorem receive_loop_invariant (w : multiWeatherProvider) (city : string) (s : state)
    (i : nat) (sum : float) :
  reachable w city s → agg s = Receiving i sum →
  i ≤ length w
  ∧ (∃ got, length got = i ∧ sum = sum_of got
       ∧ got ++ buf (temps s) ⊆+ readings (measure w city))
  ∧ buf (errs s) ⊆+ failures (measure w city).
Proof.
  intros (_ & _ & Hi)%inv_reachable Ha. rewrite Ha in Hi.
  destruct Hi as (got & Hgot & -> & _ & HT & HE). unfold temps_due, errs_due in *.
  pose proof (readings_failures_length (measure w city)) as Hlen.
  rewrite measure_length in Hlen.
  split; [|split].
  - apply Permutation_length in HT. rewrite length_app in HT. lia.
  - exists got. split; [done|]. split; [done|].
    rewrite <- HT, app_assoc. by apply submseteq_inserts_r.
  - rewrite <- HE. by apply submseteq_inserts_r.
Qed.

Lemma receive_loop_invariant_witness :
  1 ≤ length [ok 20; ok 22]%float
  ∧ (∃ got, length got = 1 ∧ 22%float = sum_of got
       ∧ got ++ buf (mkChan [20%float] 2) ⊆+ readings (measure [ok 20; ok 22]%float "Paris"))
  ∧ buf (mkChan (@nil error) 2) ⊆+ failures (measure [ok 20; ok 22]%float "Paris").
Proof.
  apply (receive_loop_invariant [ok 20; ok 22]%float "Paris"
           (mkState (mkChan [20%float] 2) (mkChan [] 2) [GExit; GExit]
              (Receiving 1 22%float))).
  - by exists [Agg; Agg; Agg; Go 1; Go 1; Go 0; SelectTemps; Go 0].
  - reflexivity.
Defined.

(** X5: the result is final and later results are dropped.  Once the
    aggregator has returned [r], no continuation of the run changes [r] or
    takes anything out of the channels: what the remaining goroutines send
    afterwards is only appended and never received. *)
Theorem returned_is_final (w : multiWeatherProvider) (city : string) (sched : list move)
    (s s' : state) (r : float * error) :
  agg s = Returned r → exec w city sched s = Some s' →
  agg s' = Returned r
  ∧ (∃ more, buf (temps s') = buf (temps s) ++ more)
  ∧ (∃ more, buf (errs s') = buf (errs s) ++ more).
Proof.
  revert s. induction sched as [|m sched IH]; intros s Ha; cbn.
  - intros [= <-]. split; [done|]. split; exists []; by rewrite app_nil_r.
  - destruct (step w city m s) as [s1|] eqn:Hm; [|done]. intros Hs.
    assert (agg s1 = Returned r
            ∧ (∃ more, buf (temps s1) = buf (temps s) ++ more)
            ∧ (∃ more, buf (errs s1) = buf (errs s) ++ more)) as (Ha1 & [mt Ht] & [me He]).
    { destruct m as [| | |j]; cbn in Hm.
      - unfold agg_step in Hm. by rewrite Ha in Hm.
      - unfold select_temps in Hm. by rewrite Ha in Hm.
      - unfold select_errs in Hm. by rewrite Ha in Hm.
      - unfold go_step in Hm. destruct (gos s !! j) as [[p|k err|]|]; [| |done..].
        + destruct (p city). injection Hm as <-. cbn.
          split; [done|]. split; exists []; by rewrite app_nil_r.
        + destruct err; [destruct (can_send (errs s))|destruct (can_send (temps s))];
            [|done| |done]; injection Hm as <-; cbn.
          * split; [done|]. split; [exists []; by rewrite app_nil_r|by eexists].
          * split; [done|]. split; [by eexists|exists []; by rewrite app_nil_r]. }
    destruct (IH s1 Ha1 Hs) as (Ha' & [mt' Ht'] & [me' He']).
    split; [done|]. split.
    + exists (mt ++ mt'). by rewrite Ht', Ht, app_assoc.
    + exists (me ++ me'). by rewrite He', He, app_assoc.
Qed.

Lemma returned_is_final_witness :
  agg (mkState (mkChan [20%float] 2) (mkChan [] 2) [GExit; GExit]
         (Returned (0%float, Some "down"))) = Returned (0%float, Some "down")
  ∧ (∃ more, [20%float] = [] ++ more)
  ∧ (∃ more, @nil error = [] ++ more).
Proof.
  apply (returned_is_final [ok 20; failing 0 "down"]%float "Paris" [Go 0; Go 0]
           (mkState (mkChan [] 2) (mkChan [] 2) [GCall (ok 20); GExit]
              (Returned (0%float, Some "down")))
           (mkState (mkChan [20%float] 2) (mkChan [] 2) [GExit; GExit]
              (Returned (0%float, Some "down")))); reflexivity.
Defined.

(** *** The providers *)

Lemma openWeatherMap_zero_on_error (W : World) (city : string) :
  (openWeatherMap.temperature W city).2 ≠ None → (openWeatherMap.temperature W city).1 = 0%float.
Proof.
  unfold openWeatherMap.temperature.
  destruct (http_Get W (openWeatherMap.url city)) as [resp [msg|]]; [done|].
  by destruct (decode_main_temp W resp) as [k [msg|]].
Qed.

Lemma weatherUnderground_zero_on_error (W : World) (w : weatherUnderground.t) (city : string) :
  (weatherUnderground.temperature W w city).2 ≠ None →
  (weatherUnderground.temperature W w city).1 = 0%float.
Proof.
  unfold weatherUnderground.temperature.
  destruct (http_Get W (weatherUnderground.url w city)) as [resp [msg|]]; [done|].
  by destruct (decode_current_observation_temp_c W resp) as [k [msg|]].
Qed.

Lemma forecastIo_zero_on_error (W : World) (w : forecastIo.t) (city : string) :
  (forecastIo.temperature W w city).2 ≠ None → (forecastIo.temperature W w city).1 = 0%float.
Proof.
  unfold forecastIo.temperature.
  destruct (openWeatherMap.coordinates W city) as [coord [msg|]]; [done|].
  unfold forecastIo.forecast.
  destruct (http_Get W (forecastIo.url W w coord)) as [resp [msg|]]; [done|].
  by destruct (decode_currently_temperature W resp) as [k [msg|]].
Qed.

Lemma forecastIo_temperature_forecast (W : World) (w : forecastIo.t) (city : string) :
  forecastIo.temperature W w city
  = forecastIo.forecast W w (openWeatherMap.coordinates W city).1.
Proof.
  unfold forecastIo.temperature, openWeatherMap.coordinates.
  destruct (http_Get W (openWeatherMap.url city)) as [resp [msg|]]; [done|].
  by destruct (decode_coord W resp) as [d [msg|]].
Qed.

(** X6: the three providers of the program return the value [0] whenever
    they return a non-nil error, whatever the request or the decoding gave. *)
Theorem providers_zero_on_error (W : World) (city : string) :
  ((openWeatherMap.temperature W city).2 ≠ None →
   (openWeatherMap.temperature W city).1 = 0%float)
  ∧ (∀ w, (weatherUnderground.temperature W w city).2 ≠ None →
          (weatherUnderground.temperature W w city).1 = 0%float)
  ∧ (∀ w, (forecastIo.temperature W w city).2 ≠ None →
          (forecastIo.temperature W w city).1 = 0%float).
Proof.
  split; [apply openWeatherMap_zero_on_error|].
  split; intros w; [apply weatherUnderground_zero_on_error|apply forecastIo_zero_on_error].
Qed.

Lemma providers_zero_on_error_witness :
  (openWeatherMap.temperature no_network "Paris").1 = 0%float.
Proof. apply (proj1 (providers_zero_on_error no_network "Paris")). discriminate. Defined.

(** X7: when a provider fails and why.  Each provider returns a nil error
    exactly when its request and the decoding of the response both succeed;
    otherwise it returns the error of the request, or else that of the
    decoding, unchanged.  For [forecastIo] the request is the forecast
    request: the lookup of the coordinates never contributes an error. *)
Theorem provider_error_is_first_failure (W : World) (city : string) :
  (openWeatherMap.temperature W city).2
  = match (http_Get W (openWeatherMap.url city)).2 with
    | Some msg => Some msg
    | None => (decode_main_temp W (http_Get W (openWeatherMap.url city)).1).2
    end
  ∧ (∀ w, (weatherUnderground.temperature W w city).2
          = match (http_Get W (weatherUnderground.url w city)).2 with
            | Some msg => Some msg
            | None => (decode_current_observation_temp_c W
                         (http_Get W (weatherUnderground.url w city)).1).2
            end)
  ∧ (∀ w, (forecastIo.temperature W w city).2
          = let url := forecastIo.url W w (openWeatherMap.coordinates W city).1 in
            match (http_Get W url).2 with
            | Some msg => Some msg
            | None => (decode_currently_temperature W (http_Get W url).1).2
            end).
Proof.
  split; [|split].
  - unfold openWeatherMap.temperature.
    destruct (http_Get W (openWeatherMap.url city)) as [resp [msg|]]; [done|]. cbn.
    by destruct (decode_main_temp W resp) as [k [msg|]].
  - intros w. unfold weatherUnderground.temperature.
    destruct (http_Get W (weatherUnderground.url w city)) as [resp [msg|]]; [done|]. cbn.
    by destruct (decode_current_observation_temp_c W resp) as [k [msg|]].
  - intros w. rewrite forecastIo_temperature_forecast.
    unfold forecastIo.forecast. cbn zeta.
    destruct (http_Get W (forecastIo.url W w (openWeatherMap.coordinates W city).1))
      as [resp [msg|]]; [done|]. cbn.
    by destruct (decode_currently_temperature W resp) as [k [msg|]].
Qed.

Lemma mw_zero_on_error (W : World) (city : string) (p : weatherProvider) :
  p ∈ mw W → (p city).2 ≠ None → (p city).1 = 0%float.
Proof.
  unfold mw. rewrite !elem_of_cons, elem_of_nil. intros [-> | [-> | [-> | []]]].
  - apply openWeatherMap_zero_on_error.
  - apply weatherUnderground_zero_on_error.
  - apply forecastIo_zero_on_error.
Qed.

(** X8: a failure of one of the program's providers passes through a
    single-provider aggregation exactly.  With any provider of [mw] as the
    only provider, when it fails the call returns its very pair, value and
    error (and does return it). *)
Theorem repo_provider_failure_passthrough (W : World) (city : string) (p : weatherProvider) :
  p ∈ mw W → (p city).2 ≠ None →
  returns [p] city (p city) ∧ ∀ r, returns [p] city r → r = p city.
Proof.
  intros Hp He. pose proof (mw_zero_on_error W city p Hp He) as Hz.
  assert (∀ r, returns [p] city r → r = p city) as Hall.
  { intros [v e] [(Hf & _)|(Hv & Hr)]%returns_result_ok.
    - unfold measure in Hf. cbn in Hf. rewrite failures_singleton in Hf.
      unfold failure in Hf. by destruct (p city).2.
    - cbn in Hv, Hr. unfold measure in Hr. cbn in Hr. rewrite failures_singleton in Hr.
      unfold failure in Hr. destruct (p city) as [k [msg|]]; [|done].
      apply list_elem_of_singleton in Hr. cbn in *. by subst. }
  split; [|done].
  destruct (p city) as [k e] eqn:Hpc. cbn in He, Hz. subst k.
  eexists _, _. split.
  - apply (exec_early_failure [p] city 0 p eq_refl). by rewrite Hpc.
  - by rewrite Hpc.
Qed.

Lemma repo_provider_failure_passthrough_witness :
  returns [openWeatherMap.temperature no_network] "Paris"
    (0%float, Some "dial tcp: no route to host").
Proof.
  apply (repo_provider_failure_passthrough no_network "Paris"
           (openWeatherMap.temperature no_network)).
  - apply list_elem_of_here.
  - discriminate.
Defined.

(** *** The handlers *)

Lemma SplitN_S_S (s sep : string) (n : nat) :
  SplitN s sep (S (S n))
  = match String.index 0 sep s with
    | None => [s]
    | Some i =>
        String.substring 0 i s
        :: SplitN (String.substring (i + String.length sep)
                     (String.length s - (i + String.length sep)) s) sep (S n)
    end.
Proof. reflexivity. Qed.

(** The paths under ["/weather/"] and ["/coordinates/"]: a slash, a first
    segment without slash, a slash and a rest.  The handlers take the whole
    rest as the city, slashes included. *)
Lemma path_city_after_prefix (seg rest : string) :
  String.index 0 "/" seg = None →
  path_city ("/" +:+ seg +:+ "/" +:+ rest) = Some rest.
Proof.
  intros Hseg. unfold path_city.
  change ("/" +:+ seg +:+ "/" +:+ rest) with (String "/" (seg +:+ "/" +:+ rest)).
  rewrite SplitN_S_S. cbn [String.index]. rewrite prefix_slash, bool_decide_eq_true_2 by done.
  change (String.length "/") with 1. cbn [Nat.add String.length Nat.sub String.substring].
  rewrite Nat.sub_0_r, substring_all, SplitN_S_S, (index_slash_append _ _ Hseg).
  change (String.length "/") with 1.
  change (seg +:+ "/" +:+ rest) with (seg +:+ String "/" rest).
  rewrite substring_append_take.
  replace (seg +:+ String "/" rest) with ((seg +:+ "/") +:+ rest)
    by apply string_append_assoc.
  replace (String.length seg + 1) with (String.length (seg +:+ "/"))
    by (by rewrite string_length_append).
  rewrite substring_append_drop, string_length_append, Nat.add_comm, Nat.add_sub, substring_all.
  reflexivity.
Qed.

(** A string with a separator in it is what precedes the first occurrence, the
    separator, and what follows. *)
Lemma index_split (s sep : string) (i : nat) :
  String.index 0 sep s = Some i →
  s = String.substring 0 i s +:+ sep
        +:+ String.substring (i + String.length sep)
              (String.length s - (i + String.length sep)) s.
Proof.
  intros Hi%String.index_correct1.
  pose proof (substring_split3 s i (String.length sep)) as Hs. by rewrite Hi in Hs.
Qed.

(** No slash before the first slash. *)
Lemma index_slash_before (s : string) (i : nat) :
  String.index 0 "/" s = Some i → String.index 0 "/" (String.substring 0 i s) = None.
Proof.
  revert i. induction s as [|b s IH]; intros i; [done|].
  cbn [String.index]. rewrite prefix_slash. case_bool_decide as Hb.
  - by intros [= <-].
  - destruct (String.index 0 "/" s) as [n|]; [|done]. intros [= <-].
    cbn [String.substring String.index]. rewrite prefix_slash, bool_decide_eq_false_2 by done.
    by rewrite IH.
Qed.

Lemma SplitN_cut (a rest : string) (n : nat) :
  String.index 0 "/" a = None →
  SplitN (a +:+ "/" +:+ rest) "/" (S (S n)) = a :: SplitN rest "/" (S n).
Proof.
  intros Ha. rewrite SplitN_S_S, (index_slash_append _ _ Ha).
  change (String.length "/") with 1.
  rewrite substring_append_take. f_equal.
  rewrite <- string_append_assoc.
  replace (String.length a + 1) with (String.length (a +:+ "/"))
    by (by rewrite string_length_append).
  by rewrite substring_append_drop, string_length_append, Nat.add_comm, Nat.add_sub,
    substring_all.
Qed.

(** X9: when the handlers find a city and when they panic.  The expression
    [strings.SplitN(path, "/", 3)[2]] has a value exactly when the path
    has two slashes: it is [a/b/city] with no slash in [a] and [b], and the
    value is [city], everything after the second slash; for every other path
    the index is out of range. *)
Theorem path_city_iff (path city : string) :
  path_city path = Some city
  ↔ ∃ a b, String.index 0 "/" a = None ∧ String.index 0 "/" b = None
           ∧ path = a +:+ "/" +:+ b +:+ "/" +:+ city.
Proof.
  unfold path_city. split.
  - rewrite SplitN_S_S. destruct (String.index 0 "/" path) as [i|] eqn:Hi; [|done].
    cbn [lookup list_lookup]. rewrite SplitN_S_S.
    destruct (String.index 0 "/" (String.substring _ _ path)) as [j|] eqn:Hj; [|done].
    cbn. intros [= <-].
    eexists _, _. split; [by apply index_slash_before in Hi|].
    split; [by apply index_slash_before in Hj|].
    rewrite (index_split _ _ _ Hi) at 1. f_equal. f_equal.
    apply (index_split _ _ _ Hj).
  - intros (a & b & Ha & Hb & ->). by rewrite !SplitN_cut.
Qed.

Lemma path_city_iff_witness : path_city "/coordinates/Paris" = Some "Paris".
Proof.
  apply (path_city_iff "/coordinates/Paris" "Paris").
  exists "", "coordinates". repeat split; reflexivity.
Defined.

Lemma coordinates_nil_error (W : World) (city : string) :
  (openWeatherMap.coordinates W city).2 = None.
Proof.
  unfold openWeatherMap.coordinates.
  destruct (http_Get W (openWeatherMap.url city)) as [got [msg|]]; [done|].
  by destruct (decode_coord W got) as [d [msg|]].
Qed.

Lemma coordinates_zero_on_failure (W : World) (city : string) :
  (http_Get W (openWeatherMap.url city)).2 ≠ None
  ∨ (decode_coord W (http_Get W (openWeatherMap.url city)).1).2 ≠ None →
  (openWeatherMap.coordinates W city).1 = mkCoord 0 0.
Proof.
  unfold openWeatherMap.coordinates.
  destruct (http_Get W (openWeatherMap.url city)) as [got [msg|]]; cbn; [done|].
  destruct (decode_coord W got) as [d [msg|]]; cbn; [done|]. by intros [?|?].
Qed.

(** X10: the handler [coordinates] never answers with an error.  Whenever
    it answers, the status is 200 and the content type JSON, and the body
    encodes the city with the coordinates of the lookup; after a failed
    request or decoding these are (0, 0), so a failed lookup cannot be told
    from a place at (0, 0). *)
Theorem coordinates_always_ok (W : World) (J : Encoding) (path : string) (resp : response) :
  coordinates_response W J path = Some resp →
  status resp = 200
  ∧ content_type resp = "application/json; charset=utf-8"
  ∧ ∃ city, path_city path = Some city
      ∧ body resp = encode_coordinates J city (openWeatherMap.coordinates W city).1
      ∧ ((http_Get W (openWeatherMap.url city)).2 ≠ None
         ∨ (decode_coord W (http_Get W (openWeatherMap.url city)).1).2 ≠ None →
         body resp = encode_coordinates J city (mkCoord 0 0)).
Proof.
  unfold coordinates_response. destruct (path_city path) as [city|]; [|done]. cbn.
  pose proof (coordinates_nil_error W city) as He.
  pose proof (coordinates_zero_on_failure W city) as Hz.
  destruct (openWeatherMap.coordinates W city) as [c e] eqn:Hc. cbn in He, Hz. subst e.
  intros [= <-]. cbn. do 2 (split; [done|]). exists city. rewrite Hc. cbn.
  do 2 (split; [done|]). intros Hfail. by rewrite (Hz Hfail).
Qed.

Lemma coordinates_always_ok_witness :
  status (mkResponse 200 "application/json; charset=utf-8" "Paris 0 0") = 200.
Proof.
  apply (coordinates_always_ok no_network (mkEncoding (λ city _, city +:+ " 0 0") (λ _ _ _, ""))
           "/coordinates/Paris"
           (mkResponse 200 "application/json; charset=utf-8" "Paris 0 0")).
  reflexivity.
Defined.

(** X11: what the handler [weather] answers.  For a path with a city, every
    response is either a 500 whose body is the error message of one of the
    three providers of [mw], followed by a newline, or a 200 with the JSON
    content type, all three providers having succeeded, [temp] being the
    float64 mean of the three readings in some order of arrival.  The body of
    the 200 is the encoding of the city, [temp] and the time taken when
    [temp] is finite, and is empty when [temp] is NaN or infinite (the
    readings can overflow: [Encode] then fails, unnoticed by the handler).
    The answer is a 500 exactly when one of the three providers fails for that
    city. *)
Theorem weather_answers (W : World) (J : Encoding) (path city : string) (resp : response) :
  path_city path = Some city →
  weather_responds W J path resp →
  ((status resp = 500
    ∧ ∃ p msg, p ∈ mw W ∧ (p city).2 = Some msg
        ∧ resp = http_Error msg StatusInternalServerError)
   ∨ (status resp = 200
      ∧ content_type resp = "application/json; charset=utf-8"
      ∧ Forall (λ p : weatherProvider, (p city).2 = None) (mw W)
      ∧ ∃ got took, got ≡ₚ (measure (mw W) city).*1
          ∧ body resp = if is_finite (mean 3 got)
                        then encode_weather J city (mean 3 got) took
                        else ""))
  ∧ (status resp = 500 ↔ ∃ p, p ∈ mw W ∧ (p city).2 ≠ None).
Proof.
  intros Hc (city' & r & took & Hc' & Hr & ->).
  rewrite Hc in Hc'. injection Hc' as <-.
  apply returns_iff_result_ok in Hr as [(Hf & got & Hgot & ->)|(Hv & He)].
  - apply failures_nil_all_ok in Hf.
    assert (Forall (λ p : weatherProvider, (p city).2 = None) (mw W)) as Hok
      by (by apply Forall_fmap in Hf).
    split.
    + right. do 3 (split; [done|]). exists got, took.
      by rewrite <- readings_all_ok.
    + cbn. split; [done|]. intros (p & Hp & Hne).
      by rewrite Forall_forall in Hok; apply Hok in Hp.
  - destruct r as [v [msg|]]; cbn [fst snd] in Hv, He; [|by apply failures_not_nil in He].
    apply failures_provider in He as (_ & p & Hp & Hpe).
    split; [left|]; cbn.
    + split; [done|]. by exists p, msg.
    + split; [|done]. intros _. exists p. split; [done|]. by destruct (p city) as [? [?|]].
Qed.

Lemma weather_answers_witness :
  status (mkResponse 200 "application/json; charset=utf-8" "") = 500
  ↔ ∃ p, p ∈ mw heat_wave ∧ (p "Paris").2 ≠ None.
Proof.
  apply (weather_answers heat_wave (mkEncoding (λ _ _, "{}") (λ _ _ _, "{}")) "/weather/Paris"
           "Paris" (mkResponse 200 "application/json; charset=utf-8" "")).
  - reflexivity.
  - exists "Paris", (infinity, None), "1ms".
    split; [reflexivity|]. split; [|reflexivity].
    exact (returns_arrival (mw heat_wave) "Paris" [1.7e308; 1.7e308; infinity]%float
             [1.7e308; 1.7e308; infinity]%float eq_refl (reflexivity _)).
Defined.
